(* ===================================================================== *)
(* rxjs-supporters: the pagination engine of src/rxjs.ts                 *)
(*   useScrolling   (cursor tracker)                                     *)
(*   switchLoadMore (load-more engine)                                   *)
(* and the predicate notNil of src/util.ts they rely on.                 *)
(*                                                                       *)
(* Both operators are closures over mutable variables driven by the      *)
(* notifications of their input streams.  Each is embedded as a          *)
(* deterministic step function on an explicit state record: one step     *)
(* per notification delivered to the operator, returning the new state   *)
(* and the effects the operator performs, in order.  The RxJS            *)
(* combinators (tap, filter, map, of, merge, combineLatest, switchMap,   *)
(* catchError) are inlined with their library semantics.                 *)
(*                                                                       *)
(* Scope: step is the engine for a loadMoreFn that returns a stream,      *)
(* stepT adds the call that throws; reset payloads are objects; the      *)
(* counter of useScrolling starts at an integer a double holds; for      *)
(* useScrolling only the values of the two inputs are followed, not      *)
(* their completion or failure, which the operator passes on as          *)
(* combineLatest does.  The stateless operators of src/rxjs.ts and the   *)
(* predicates of src/util.ts follow the two operators.                   *)
(* ===================================================================== *)

From stdpp Require Import gmap strings list fin_maps.

(* --------------------------------------------------------------------- *)
(* src/util.ts                                                           *)
(* --------------------------------------------------------------------- *)

Module Util.

(* A run-time value of type  D | null | undefined. *)
Inductive item (D : Type) : Type :=
| Undefined
| Null
| Val (d : D).

Arguments Undefined {D}.
Arguments Null {D}.
Arguments Val {D} d.

(* export const notNil = (value) => value !== null && value !== undefined *)
Definition notNil {D : Type} (value : item D) : bool :=
  match value with
  | Null => false
  | Undefined => false
  | Val _ => true
  end.

End Util.

Export Util.

(* --------------------------------------------------------------------- *)
(* ./models (not part of the sources at hand)                            *)
(* --------------------------------------------------------------------- *)

(** Modelled from the spec: the interface [Pagination] imported from
  "./models", which is not among the source files.  The data model gives
  a request descriptor the fields [page] (an integer >= 1) and [size]
  (an integer >= 0); both are read as natural numbers. *)
Class Pagination (A : Type) : Type := {
  page : A -> nat;
  size : A -> nat
}.

(* --------------------------------------------------------------------- *)
(* switchLoadMore                                                        *)
(* --------------------------------------------------------------------- *)

Module switchLoadMore.

Section Engine.

(* T & Pagination: the descriptors; D: the fetched items. *)
Context {P D : Type} `{Pagination P}.

(* The second parameter of switchLoadMore (default true). *)
Variable usePadNil : bool.

(* let prevPage = Infinity *)
Inductive num : Type :=
| Infinity
| Fin (n : nat).

(* a <= b, for a finite a *)
Definition leq (a : nat) (b : num) : bool :=
  match b with
  | Infinity => true
  | Fin n => a <=? n
  end.

(* The three closure variables, and the bookkeeping of the operators:
   [inner] is the subscription switchMap currently holds (the number of
   the loadMoreFn call it comes from), [calls] counts the calls of
   loadMoreFn, [srcDone] says that the source has completed and [closed]
   that the output has errored or completed. *)
Record state : Type := mkState {
  defaultItems : list (item D);
  data : list (item D);
  prevPage : num;
  inner : option nat;
  calls : nat;
  srcDone : bool;
  closed : bool
}.

Definition init : state :=
  mkState [] [] Infinity None 0 false false.

(* Notifications the operator receives: from the source stream, and from
   the stream returned by the k-th call of loadMoreFn.  A page is a list
   of run-time values: the type D[] does not keep null or undefined out
   of it when D itself allows them. *)
Inductive event : Type :=
| SrcNext (p : P)
| SrcError
| SrcComplete
| FetchNext (k : nat) (res : list (item D))
| FetchError (k : nat)
| FetchComplete (k : nat).

(* What the operator does: call loadMoreFn (its k-th call), and notify
   its subscriber. *)
Inductive action : Type :=
| Call (k : nat) (p : P)
| Emit (xs : list (item D))
| Fail
| Done.

(* tap((p) => { if (p.page <= prevPage) {...; data = defaultItems}
                prevPage = p.page }) *)
Definition tapEpoch (s : state) (p : P) : state :=
  if leq (page p) (prevPage s) then
    let d := if usePadNil && negb (size p =? 0)
             then replicate (size p) Undefined
             else [] in
    mkState d d (Fin (page p)) (inner s) (calls s) (srcDone s) (closed s)
  else
    mkState (defaultItems s) (data s) (Fin (page p))
            (inner s) (calls s) (srcDone s) (closed s).

(* filter((p) => !!p.size && data.length % p.size === 0) *)
Definition gate (s : state) (p : P) : bool :=
  negb (size p =? 0) && (length (data s) mod size p =? 0).

(* data = [...data.filter(notNil), ...res] *)
Definition mergePage (xs res : list (item D)) : list (item D) :=
  List.filter notNil xs ++ res.

(* The inner stream has ended: the output completes when the source
   has completed too. *)
Definition innerEnd (s : state) : state * list action :=
  let s' := mkState (defaultItems s) (data s) (prevPage s) None (calls s)
                    (srcDone s) (srcDone s) in
  (s', if srcDone s then [Done] else []).

(* One notification.  Nothing happens once the output is closed, and the
   source is silent once it has completed.  A notification of a fetch
   stream counts only if that stream is the inner subscription: switchMap
   has unsubscribed from the others. *)
Definition step (s : state) (e : event) : state * list action :=
  if closed s then (s, []) else
  match e with
  | SrcNext p =>
      if srcDone s then (s, []) else
      let s1 := tapEpoch s p in
      if gate s1 p then
        (* switchMap: drop the previous inner stream, call loadMoreFn,
           subscribe to merge(of(data), ...): of(data) emits at once. *)
        (mkState (defaultItems s1) (data s1) (prevPage s1)
                 (Some (calls s1)) (S (calls s1)) (srcDone s1) (closed s1),
         [Call (calls s1) p; Emit (data s1)])
      else (s1, [])
  | SrcError =>
      if srcDone s then (s, []) else
      (mkState (defaultItems s) (data s) (prevPage s) None (calls s)
               (srcDone s) true, [Fail])
  | SrcComplete =>
      if srcDone s then (s, []) else
      match inner s with
      | Some _ =>
          (mkState (defaultItems s) (data s) (prevPage s) (inner s)
                   (calls s) true (closed s), [])
      | None =>
          (mkState (defaultItems s) (data s) (prevPage s) None
                   (calls s) true true, [Done])
      end
  | FetchNext k res =>
      if decide (inner s = Some k) then
        let d := mergePage (data s) res in
        (mkState (defaultItems s) d (prevPage s) (inner s) (calls s)
                 (srcDone s) (closed s), [Emit d])
      else (s, [])
  | FetchError k =>
      if decide (inner s = Some k) then
        (* catchError(() => of([])) *)
        let '(s', acts) := innerEnd s in (s', Emit [] :: acts)
      else (s, [])
  | FetchComplete k =>
      if decide (inner s = Some k) then innerEnd s else (s, [])
  end.

(* Delivering a sequence of notifications, one after the other. *)
Fixpoint run (s : state) (es : list event) : state * list action :=
  match es with
  | [] => (s, [])
  | e :: es' =>
      let '(s1, a1) := step s e in
      let '(s2, a2) := run s1 es' in
      (s2, a1 ++ a2)
  end.

(* Bookkeeping invariant: the inner subscription comes from a call that
   was made, and a closed output holds no inner subscription. *)
Definition wf (s : state) : Prop :=
  forall k, inner s = Some k -> k < calls s /\ closed s = false.

(* Does a notification come from the stream of the a-th call? *)
Definition fromCall (a : nat) (e : event) : bool :=
  match e with
  | FetchNext k _ | FetchError k | FetchComplete k => bool_decide (k = a)
  | _ => false
  end.

(* The notifications with those of the a-th call left out. *)
Definition without (a : nat) (es : list event) : list event :=
  List.filter (fun e => negb (fromCall a e)) es.

(* Descriptors of one epoch after its page [prev]: each has page size [sz]
   and a page number above the one before it.  Notifications of fetch
   streams may come in between; the source neither fails nor completes. *)
Fixpoint laterPages (sz : nat) (prev : num) (es : list event) : Prop :=
  match es with
  | [] => True
  | SrcNext p :: es' =>
      size p = sz /\ leq (page p) prev = false /\
      laterPages sz (Fin (page p)) es'
  | SrcError :: _ => False
  | SrcComplete :: _ => False
  | _ :: es' => laterPages sz prev es'
  end.

Definition isEmit (a : action) : bool :=
  match a with Emit _ => true | _ => false end.

Definition isCall (a : action) : bool :=
  match a with Call _ _ => true | _ => false end.


(* loadMoreFn may throw instead of returning a stream: throws p says that
   loadMoreFn(p) does. *)
Variable throws : P -> bool.

(* One notification, for such a loadMoreFn.  The call loadMoreFn(v) is
   made inside the function given to switchMap, before merge is built and
   outside catchError: when it throws, switchMap has dropped the previous
   inner stream, nothing is emitted and the error goes to the subscriber.
   In every other case the engine does what step describes. *)
Definition stepT (s : state) (e : event) : state * list action :=
  match e with
  | SrcNext p =>
      let s1 := tapEpoch s p in
      if negb (closed s) && negb (srcDone s) && gate s1 p && throws p then
        (mkState (defaultItems s1) (data s1) (prevPage s1) None
                 (S (calls s1)) (srcDone s1) true,
         [Call (calls s1) p; Fail])
      else step s e
  | _ => step s e
  end.

Fixpoint runT (s : state) (es : list event) : state * list action :=
  match es with
  | [] => (s, [])
  | e :: es' =>
      let '(s1, a1) := stepT s e in
      let '(s2, a2) := runT s1 es' in
      (s2, a1 ++ a2)
  end.

(* The descriptors among the notifications, in order. *)
Fixpoint descriptors (es : list event) : list P :=
  match es with
  | [] => []
  | SrcNext p :: es' => p :: descriptors es'
  | _ :: es' => descriptors es'
  end.

(* The source neither fails nor completes. *)
Definition sourceLive (es : list event) : bool :=
  forallb (fun e => match e with
                    | SrcError | SrcComplete => false
                    | _ => true
                    end) es.

(* The outcomes of the epoch check along a run of the engine: for every
   descriptor that reaches tap, the value of p.page <= prevPage in the
   state the engine is in at that moment. *)
Fixpoint epochStarts (s : state) (es : list event) : list bool :=
  match es with
  | [] => []
  | e :: es' =>
      match e with
      | SrcNext p =>
          if closed s || srcDone s then []
          else [leq (page p) (prevPage s)]
      | _ => []
      end ++ epochStarts (step s e).1 es'
  end.

End Engine.

End switchLoadMore.

(* --------------------------------------------------------------------- *)
(* useScrolling                                                          *)
(* --------------------------------------------------------------------- *)

Module useScrolling.

Section Tracker.

(* Values of object fields: numbers, and whatever else a caller stores. *)
Context {V : Type}.

Inductive value : Type :=
| Num (n : nat)
| Other (v : V).

(* The reset payloads (T) and the descriptors (T & Pagination) are
   objects: finite maps from field names to values. *)
#[local] Abbreviation obj := (gmap string value).

(* The parameters size and startPage (default 1) of useScrolling. *)
Variable size : nat.
Variable startPage : nat.

(* The closure variable [page], and what combineLatest remembers of its
   two inputs: the latest value of reset$, and whether scroll$ has
   produced a value (the value itself is never read). *)
Record state : Type := mkState {
  page : nat;
  latestReset : option obj;
  scrollSeen : bool
}.

Definition init : state := mkState startPage None false.

(* A value arrives on reset$ or on scroll$. *)
Inductive event : Type :=
| Reset (params : obj)
| Scroll.

(* map(([params]) => ({ page, size, ...params })): the fields of params
   are copied last, over page and size. *)
Definition descriptor (pg : nat) (params : obj) : obj :=
  params ∪ <["page" := Num pg]> (<["size" := Num size]> ∅).

(* page++.  The counter is a double holding an integer: adding one is
   exact below 2^53; from 2^53 on the sum falls between two doubles and is
   rounded to the nearest one, a tie going to the even significand, so
   that the counter comes to a halt (at 2^53 at once). *)
Definition incr (n : nat) : nat :=
  if (N.of_nat n <? 2 ^ 53)%N then S n
  else if (N.of_nat n <? 2 ^ 54)%N && N.odd (N.of_nat n / 2) then S (S n)
  else n.

(* The integers below 2^53, on which page++ adds one. *)
Definition exact (n : nat) : Prop := (N.of_nat n < 2 ^ 53)%N.

(* combineLatest emits once both inputs have a value; then map builds the
   descriptor and tap(() => page++) advances the counter. *)
Definition emit (s : state) : state * option obj :=
  match latestReset s, scrollSeen s with
  | Some params, true =>
      (mkState (incr (page s)) (latestReset s) (scrollSeen s),
       Some (descriptor (page s) params))
  | _, _ => (s, None)
  end.

Definition step (s : state) (e : event) : state * option obj :=
  match e with
  | Reset params =>
      (* tap(() => (page = startPage)) sits before combineLatest *)
      emit (mkState startPage (Some params) (scrollSeen s))
  | Scroll =>
      emit (mkState (page s) (latestReset s) true)
  end.

(* The descriptors emitted along a sequence of input values, each with
   the input value that triggered it. *)
Fixpoint run (s : state) (es : list event) : state * list (event * obj) :=
  match es with
  | [] => (s, [])
  | e :: es' =>
      let '(s1, o) := step s e in
      let '(s2, out) := run s1 es' in
      (s2, match o with Some d => (e, d) :: out | None => out end)
  end.

Definition isReset (e : event) : bool :=
  match e with Reset _ => true | Scroll => false end.

Definition isScroll (e : event) : bool :=
  match e with Reset _ => false | Scroll => true end.

(* The payload of the last reset among the input values. *)
Fixpoint lastReset (acc : option obj) (es : list event) : option obj :=
  match es with
  | [] => acc
  | Reset params :: es' => lastReset (Some params) es'
  | Scroll :: es' => lastReset acc es'
  end.

(* The page numbers of the epochs, read off the triggers: startPage for
   the first descriptor and for one triggered by a reset, one more than
   the page before for one triggered by a scroll. *)
Fixpoint epochPages (prev : option nat) (trigs : list event) : list nat :=
  match trigs with
  | [] => []
  | t :: trigs' =>
      let n := match prev, t with
               | Some m, Scroll => S m
               | _, _ => startPage
               end in
      n :: epochPages (Some n) trigs'
  end.

(* The counter is one past the page [prev] of the descriptor emitted last;
   before the first descriptor it is startPage. *)
Definition tracks (s : state) (prev : option nat) : Prop :=
  match prev with
  | None =>
      page s = startPage /\ (latestReset s = None \/ scrollSeen s = false)
  | Some m =>
      page s = S m /\ is_Some (latestReset s) /\ scrollSeen s = true
  end.

(* A payload without a field named page. *)
Definition plain (params : obj) : Prop := params !! "page" = None.

End Tracker.

End useScrolling.

(* --------------------------------------------------------------------- *)
(* Concrete descriptors and inputs                                       *)
(* --------------------------------------------------------------------- *)

Module Sample.

(* A descriptor with nothing but the two Pagination fields. *)
Record req : Type := mkReq { req_page : nat; req_size : nat }.

#[export] Instance req_pagination : Pagination req :=
  {| page := req_page; size := req_size |}.

Definition a : item string := Val "a".
Definition b : item string := Val "b".
Definition c : item string := Val "c".
Definition d : item string := Val "d".

(* Pages 1, 2 and 3 of size 2. *)
Definition page1 : req := mkReq 1 2.
Definition page2 : req := mkReq 2 2.
Definition page3 : req := mkReq 3 2.

(* The engine, padding enabled, after the descriptor of page 1: its fetch
   is in flight. *)
Definition inFlight : switchLoadMore.state (D := string) :=
  (switchLoadMore.run true switchLoadMore.init [switchLoadMore.SrcNext page1]).1.

(* The engine after a first page of one item only, its fetch completed. *)
Definition shortPage : switchLoadMore.state (D := string) :=
  (switchLoadMore.run true switchLoadMore.init
     [switchLoadMore.SrcNext page1; switchLoadMore.FetchNext 0 [a];
      switchLoadMore.FetchComplete 0]).1.


(* A loadMoreFn that throws for every descriptor, and one that throws for
   page 2 only. *)
Definition alwaysThrows (p : req) : bool := true.

Definition throwsOnPage2 (p : req) : bool := req_page p =? 2.

(* Reset payloads: one with a field of its own, one with a field named
   page, and one with the fields page and size. *)
Definition query : gmap string (useScrolling.value (V := string)) :=
  {[ "q" := useScrolling.Other "x" ]}.

Definition withPage : gmap string (useScrolling.value (V := string)) :=
  {[ "page" := useScrolling.Num 7 ]}.

Definition withBoth : gmap string (useScrolling.value (V := string)) :=
  <[ "page" := useScrolling.Other "x" ]> {[ "size" := useScrolling.Num 50 ]}.

End Sample.

(* --------------------------------------------------------------------- *)
(* Streams as their subscriber sees them                                 *)
(* --------------------------------------------------------------------- *)

Module Stream.

Section Notifications.

Context {A E : Type}.

(* What a stream sends to its subscriber: a value, an error, completion. *)
Inductive notification : Type :=
| Next (a : A)
| Error (e : E)
| Complete.

Definition isNext (n : notification) : bool :=
  match n with Next _ => true | _ => false end.

(* A subscriber stops listening at the first error or completion. *)
Fixpoint observed (tr : list notification) : list notification :=
  match tr with
  | [] => []
  | Next a :: tr' => Next a :: observed tr'
  | n :: _ => [n]
  end.

(* The values among the notifications, in order. *)
Fixpoint values (tr : list notification) : list A :=
  match tr with
  | [] => []
  | Next a :: tr' => a :: values tr'
  | _ :: tr' => values tr'
  end.

(* The notifications that end a stream. *)
Definition endings (tr : list notification) : list notification :=
  List.filter (fun n => negb (isNext n)) tr.

(* filter(predicate) *)
Fixpoint filterOp (predicate : A -> bool) (tr : list notification)
  : list notification :=
  match tr with
  | [] => []
  | Next a :: tr' =>
      if predicate a then Next a :: filterOp predicate tr'
      else filterOp predicate tr'
  | n :: _ => [n]
  end.

(* catchError((err) => of(h(err))), where computing h(err) may throw: the
   error is replaced by one value and completion, or, when the selector
   throws, by the error it throws. *)
Fixpoint catchErrorOf (h : E -> A + E) (tr : list notification)
  : list notification :=
  match tr with
  | [] => []
  | Next a :: tr' => Next a :: catchErrorOf h tr'
  | Error e :: _ =>
      match h e with
      | inl a => [Next a; Complete]
      | inr e' => [Error e']
      end
  | Complete :: _ => [Complete]
  end.

End Notifications.

Arguments notification : clear implicits.

End Stream.

(* --------------------------------------------------------------------- *)
(* src/util.ts: notErr and notNilObject                                  *)
(* --------------------------------------------------------------------- *)

Module Predicates.

(* A value that is not null or undefined: an instance of Error, built
   from what was thrown, or anything else. *)
Inductive orError (D E : Type) : Type :=
| Plain (d : D)
| ErrorOf (cause : E).

Arguments Plain {D E} d.
Arguments ErrorOf {D E} cause.

(* value instanceof Error *)
Definition instanceofError {D E : Type} (value : item (orError D E)) : bool :=
  match value with
  | Val (ErrorOf _) => true
  | _ => false
  end.

(* export const notErr = (value) =>
     notNil(value) && !(value instanceof Error) *)
Definition notErr {D E : Type} (value : item (orError D E)) : bool :=
  notNil value && negb (instanceofError value).

(* Object.values(v).every((v) => notNil(v)); Object.values throws on null
   and undefined, which && keeps it from seeing. *)
Definition everyValueNotNil {D : Type} (v : item (gmap string (item D)))
  : bool :=
  match v with
  | Val o => forallb notNil (map_to_list o).*2
  | _ => false
  end.

(* export const notNilObject = (v) =>
     notNil(v) && Object.values(v).every((v) => notNil(v)) *)
Definition notNilObject {D : Type} (v : item (gmap string (item D))) : bool :=
  notNil v && everyValueNotNil v.

End Predicates.

(* --------------------------------------------------------------------- *)
(* src/rxjs.ts: the filters                                              *)
(* --------------------------------------------------------------------- *)

Module Filters.

Import Stream Predicates.

Section Filters.

Context {D E : Type}.

(* export const filterNil = filter(notNil) *)
Definition filterNil (obs : list (notification (item D) E))
  : list (notification (item D) E) :=
  filterOp notNil obs.

(* export const filterNilObject = filter(notNilObject) *)
Definition filterNilObject
    (obs : list (notification (item (gmap string (item D))) E))
  : list (notification (item (gmap string (item D))) E) :=
  filterOp notNilObject obs.

(* value === true, value === false *)
Definition isTrue (value : item bool) : bool :=
  match value with Val true => true | _ => false end.

Definition isFalse (value : item bool) : bool :=
  match value with Val false => true | _ => false end.

(* export const filterTrue = filter((value) => value === true) *)
Definition filterTrue (obs : list (notification (item bool) E))
  : list (notification (item bool) E) :=
  filterOp isTrue obs.

(* export const filterFalse = filter((value) => value === false) *)
Definition filterFalse (obs : list (notification (item bool) E))
  : list (notification (item bool) E) :=
  filterOp isFalse obs.

(* new Error(err) turns err into a string for the message of the Error.
   That conversion throws a TypeError for a value without a string form (a
   Symbol, an object with no toString): unprintable err says that err is
   such a value and typeError err is the TypeError thrown for it. *)
Variable unprintable : E -> bool.
Variable typeError : E -> E.

Definition newError (err : E) : item (orError D E) + E :=
  if unprintable err then inr (typeError err)
  else inl (Val (ErrorOf err)).

(* export const filterError = (obs) =>
     obs.pipe(catchError((err) => of(new Error(err))), filter(notErr)) *)
Definition filterError (obs : list (notification (item (orError D E)) E))
  : list (notification (item (orError D E)) E) :=
  filterOp notErr (catchErrorOf newError obs).

End Filters.

End Filters.

(* --------------------------------------------------------------------- *)
(* src/rxjs.ts: onLoading, and the earlier onLoading of the repository   *)
(* --------------------------------------------------------------------- *)

Module Loading.

Import Stream.

Section Loading.

Context {U E : Type}.

(* What happens to one subscription of the stream onLoading returns: the
   source notifies, or the subscriber unsubscribes. *)
Inductive input : Type :=
| FromSource (n : notification U E)
| Unsubscribe.

(* What the operator does: sbj.next(b), and passing a notification on to
   the subscriber. *)
Inductive effect : Type :=
| Signal (b : bool)
| Deliver (n : notification U E).

(* obs.pipe(tap(() => sbj.next(true)),
            catchError((err) => { sbj.next(false);
                                  return throwError(() => err) }),
            finalize(() => sbj.next(false)))
   finalize runs its callback when the subscription is torn down: after
   the error or the completion has been passed on, or on unsubscribing. *)
Fixpoint piped (ins : list input) : list effect :=
  match ins with
  | [] => []
  | FromSource (Next u) :: ins' =>
      Signal true :: Deliver (Next u) :: piped ins'
  | FromSource (Error err) :: _ =>
      [Signal false; Deliver (Error err); Signal false]
  | FromSource Complete :: _ =>
      [Deliver Complete; Signal false]
  | Unsubscribe :: _ =>
      [Signal false]
  end.

(* onLoading(sbj)(obs), subscribed once: sbj.next(true) when the operator
   is applied, then the piped stream. *)
Definition onLoading (ins : list input) : list effect :=
  Signal true :: piped ins.

(* The onLoading of src/unnamed/part_000:
     sbj.next(true); return obs.pipe(finalize(() => sbj.next(false))) *)
Fixpoint finalized (ins : list input) : list effect :=
  match ins with
  | [] => []
  | FromSource (Next u) :: ins' => Deliver (Next u) :: finalized ins'
  | FromSource n :: _ => [Deliver n; Signal false]
  | Unsubscribe :: _ => [Signal false]
  end.

Definition onLoadingEarlier (ins : list input) : list effect :=
  Signal true :: finalized ins.

(* The two sides of the effects. *)
Fixpoint signals (effs : list effect) : list bool :=
  match effs with
  | [] => []
  | Signal b :: effs' => b :: signals effs'
  | Deliver _ :: effs' => signals effs'
  end.

Fixpoint delivered (effs : list effect) : list (notification U E) :=
  match effs with
  | [] => []
  | Signal _ :: effs' => delivered effs'
  | Deliver n :: effs' => n :: delivered effs'
  end.

(* The notifications of the source before the subscriber unsubscribes. *)
Fixpoint received (ins : list input) : list (notification U E) :=
  match ins with
  | FromSource n :: ins' => n :: received ins'
  | _ => []
  end.

(* Has the subscription ended: by an error, by completion, or by
   unsubscribing? *)
Definition ended (ins : list input) : bool :=
  existsb (fun i => match i with
                    | FromSource (Next _) => false
                    | _ => true
                    end) ins.

(* Has it ended by an error of the source? *)
Fixpoint errored (ins : list input) : bool :=
  match ins with
  | FromSource (Next _) :: ins' => errored ins'
  | FromSource (Error _) :: _ => true
  | _ => false
  end.

End Loading.

End Loading.

(* --------------------------------------------------------------------- *)
(* src/rxjs.ts: watchFocus                                               *)
(* --------------------------------------------------------------------- *)

Module Focus.

(* The events of the element that the two fromEvent streams listen to. *)
Inductive domEvent : Type :=
| Focusin
| Focusout.

(* merge(fromEvent(el, "focusin").pipe(map(() => true)),
         fromEvent(el, "focusout").pipe(map(() => false)))
     .pipe(startWith(false)) *)
Definition watchFocus (evs : list domEvent) : list bool :=
  false :: map (fun ev => match ev with
                          | Focusin => true
                          | Focusout => false
                          end) evs.

(* Whether the element has the focus after the events, when it had not
   before them. *)
Definition focused (evs : list domEvent) : bool :=
  fold_left (fun _ ev => match ev with
                         | Focusin => true
                         | Focusout => false
                         end) evs false.

End Focus.

(* --------------------------------------------------------------------- *)
(* Paging sessions: descriptors with the pages their fetches return      *)
(* --------------------------------------------------------------------- *)

Module Paging.

Import switchLoadMore.

Section Sessions.

Context {P D : Type} `{Pagination P}.

(* Each descriptor is followed by the page its fetch returns and by the
   completion of the fetch; k numbers the calls of loadMoreFn. *)
Fixpoint session (k : nat) (prs : list (P * list (item D)))
  : list (event (P := P) (D := D)) :=
  match prs with
  | [] => []
  | (p, r) :: prs' =>
      SrcNext p :: FetchNext k r :: FetchComplete k :: session (S k) prs'
  end.

(* What such a session is to produce on the buffer buf: per descriptor
   the call, the buffer, and the buffer with the page merged in. *)
Fixpoint sessionOutput (k : nat) (buf : list (item D))
    (prs : list (P * list (item D))) : list (action (P := P) (D := D)) :=
  match prs with
  | [] => []
  | (p, r) :: prs' =>
      Call k p :: Emit buf :: Emit (mergePage buf r)
        :: sessionOutput (S k) (mergePage buf r) prs'
  end.

(* Descriptors of page size sz with page numbers going up from prev, each
   with a page of items none of which is null or undefined and whose
   number is a multiple of sz. *)
Fixpoint fullPages (sz : nat) (prev : num) (prs : list (P * list (item D)))
  : Prop :=
  match prs with
  | [] => True
  | (p, r) :: prs' =>
      size p = sz /\ leq (page p) prev = false /\
      length r mod sz = 0 /\ forallb notNil r = true /\
      fullPages sz (Fin (page p)) prs'
  end.

End Sessions.

Section Requests.

Context {V : Type}.

(* A descriptor of useScrolling as switchLoadMore takes it, of type
   T & Pagination: the object, with the numbers its fields page and size
   hold. *)
Record request : Type := mkRequest {
  fields : gmap string (useScrolling.value (V := V));
  requestPage : nat;
  requestSize : nat
}.

#[export] Instance request_pagination : Pagination request :=
  {| page := requestPage; size := requestSize |}.

(* An object is such a descriptor when its fields page and size hold
   numbers; an object with anything else there is not of the type. *)
Definition asRequest (d : gmap string (useScrolling.value (V := V)))
  : option request :=
  match d !! "page", d !! "size" with
  | Some (useScrolling.Num p), Some (useScrolling.Num n) =>
      Some (mkRequest d p n)
  | _, _ => None
  end.

End Requests.

End Paging.

(* --------------------------------------------------------------------- *)
(* More concrete inputs                                                  *)
(* --------------------------------------------------------------------- *)

Module Inputs.

Import Stream Predicates Loading Focus Sample.

(* A source of three values that then fails. *)
Definition failing : list (notification (item (orError string string)) string) :=
  [Next (Val (Plain "a")); Next Null; Next (Val (ErrorOf "old"));
   Error "boom"; Next (Val (Plain "late"))].

(* A source that fails with a value that has no string form; which
   failures have none, and the TypeError thrown for them. *)
Definition failingOddly
  : list (notification (item (orError string string)) string) :=
  [Next (Val (Plain "a")); Error "Symbol()"].

Definition hasNoString (err : string) : bool := String.eqb err "Symbol()".

Definition typeErrorFor (err : string) : string :=
  String.append "TypeError: " err.

(* An object with a field that is null, and one without. *)
Definition holed : gmap string (item string) :=
  <[ "name" := Val "n" ]> {[ "mail" := Null ]}.

Definition filled : gmap string (item string) :=
  <[ "name" := Val "n" ]> {[ "mail" := Val "m" ]}.

(* Two values, then an error. *)
Definition twoThenError : list (input (U := string) (E := string)) :=
  [FromSource (Next "x"); FromSource (Next "y"); FromSource (Error "boom")].

(* Pages 2 and 3 with their items. *)
Definition laterPages23 : list (req * list (item string)) :=
  [(page2, [c; d]); (page3, [a; b])].

(* A run of useScrolling with size = 2 and startPage = 1, its descriptors
   as the engine takes them, and a run of the engine on them: the first
   page is fetched before the second descriptor arrives. *)
Definition scrolled
  : list (useScrolling.event (V := string) *
          gmap string (useScrolling.value (V := string))) :=
  (useScrolling.run 2 1 (useScrolling.init 1)
     [useScrolling.Reset query; useScrolling.Scroll; useScrolling.Scroll;
      useScrolling.Reset ∅]).2.

Definition requested : list (Paging.request (V := string)) :=
  omap Paging.asRequest (map snd scrolled).

Definition fed
  : list (switchLoadMore.event (P := Paging.request (V := string))
                               (D := string)) :=
  match requested with
  | r1 :: rs =>
      switchLoadMore.SrcNext r1 :: switchLoadMore.FetchNext 0 [a; b]
        :: switchLoadMore.FetchComplete 0 :: map switchLoadMore.SrcNext rs
  | [] => []
  end.

(* The engine, padding enabled, after a first page a, b whose fetch has
   completed. *)
Definition onePage : switchLoadMore.state (D := string) :=
  (switchLoadMore.run true switchLoadMore.init
     [switchLoadMore.SrcNext page1; switchLoadMore.FetchNext 0 [a; b];
      switchLoadMore.FetchComplete 0]).1.

End Inputs.

(* ===================================================================== *)
(* Properties of switchLoadMore                                          *)
(* ===================================================================== *)

Module SwitchLoadMoreProofs.

Import switchLoadMore.

Section Engine.

Context {P D : Type} `{Pagination P}.
Variable usePadNil : bool.

#[local] Abbreviation state := (@state D).
#[local] Abbreviation event := (@event P D).
#[local] Abbreviation action := (@action P D).
#[local] Abbreviation step := (step usePadNil).
#[local] Abbreviation run := (run usePadNil).
#[local] Abbreviation tapEpoch := (tapEpoch usePadNil).

(* ---- the epoch check touches the three closure variables only ---- *)

Lemma tapEpoch_inner (s : state) p : inner (tapEpoch s p) = inner s.
Proof. unfold switchLoadMore.tapEpoch. by destruct (leq _ _). Qed.

Lemma tapEpoch_calls (s : state) p : calls (tapEpoch s p) = calls s.
Proof. unfold switchLoadMore.tapEpoch. by destruct (leq _ _). Qed.

Lemma tapEpoch_srcDone (s : state) p : srcDone (tapEpoch s p) = srcDone s.
Proof. unfold switchLoadMore.tapEpoch. by destruct (leq _ _). Qed.

Lemma tapEpoch_closed (s : state) p : closed (tapEpoch s p) = closed s.
Proof. unfold switchLoadMore.tapEpoch. by destruct (leq _ _). Qed.

Lemma tapEpoch_prevPage (s : state) p : prevPage (tapEpoch s p) = Fin (page p).
Proof. unfold switchLoadMore.tapEpoch. by destruct (leq _ _). Qed.

Lemma tapEpoch_later (s : state) p :
  leq (page p) (prevPage s) = false ->
  data (tapEpoch s p) = data s /\ defaultItems (tapEpoch s p) = defaultItems s.
Proof. intros E. unfold switchLoadMore.tapEpoch. by rewrite E. Qed.

Lemma tapEpoch_restart (s : state) p :
  leq (page p) (prevPage s) = true ->
  data (tapEpoch s p) =
    (if usePadNil && negb (size p =? 0)
     then replicate (size p) Undefined else []) /\
  defaultItems (tapEpoch s p) = data (tapEpoch s p).
Proof. intros E. unfold switchLoadMore.tapEpoch. by rewrite E. Qed.

Create Rewrite HintDb tap.

#[local] Hint Rewrite tapEpoch_inner tapEpoch_calls tapEpoch_srcDone tapEpoch_closed
  tapEpoch_prevPage : tap.

(* Case analysis of one step, along the tests the operators make. *)
Ltac step_cases s :=
  unfold switchLoadMore.step, innerEnd;
  repeat match goal with
    | |- context [if closed s then _ else _] => destruct (closed s) eqn:?
    | |- context [if srcDone s then _ else _] => destruct (srcDone s) eqn:?
    | |- context [if gate ?x ?p then _ else _] => destruct (gate x p) eqn:?
    | |- context [if decide ?Q then _ else _] => destruct (decide Q)
    | |- context [match inner s with _ => _ end] => destruct (inner s) eqn:?
    end;
  simpl.

(* ---- what one step does ---- *)

(* An admitted descriptor: loadMoreFn is called, the buffer is emitted, and
   the new stream takes the place of the inner subscription. *)
Lemma step_accepted (s : state) (p : P) :
  closed s = false -> srcDone s = false -> gate (tapEpoch s p) p = true ->
  step s (SrcNext p) =
    (mkState (defaultItems (tapEpoch s p)) (data (tapEpoch s p))
             (Fin (page p)) (Some (calls s)) (S (calls s)) false false,
     [Call (calls s) p; Emit (data (tapEpoch s p))]).
Proof.
  intros Hc Hd Ha. unfold switchLoadMore.step. rewrite Hc, Hd, Ha.
  autorewrite with tap. by rewrite Hc, Hd.
Qed.

(* A rejected descriptor only passes the epoch check. *)
Lemma step_rejected (s : state) (p : P) :
  closed s = false -> srcDone s = false -> gate (tapEpoch s p) p = false ->
  step s (SrcNext p) = (tapEpoch s p, []).
Proof. intros Hc Hd Ha. unfold switchLoadMore.step. by rewrite Hc, Hd, Ha. Qed.

(* loadMoreFn is called by an admitted descriptor and by nothing else. *)
Lemma call_inv (s : state) (e : event) k p :
  In (Call k p) (step s e).2 ->
  e = SrcNext p /\ closed s = false /\ srcDone s = false /\
  gate (tapEpoch s p) p = true /\ k = calls s.
Proof.
  destruct e; step_cases s; simpl; intros Hin;
    repeat (destruct Hin as [Hin | Hin]; try discriminate Hin); try done.
  inversion Hin; subst. by autorewrite with tap.
Qed.

(* A notification of a stream that is not the inner subscription is
   dropped. *)
Lemma step_stale (s : state) (e : event) a :
  inner s <> Some a -> fromCall a e = true -> step s e = (s, []).
Proof.
  intros Hne Hf. destruct e; simpl in Hf; try discriminate;
    apply bool_decide_eq_true in Hf; subst;
    step_cases s; congruence.
Qed.

Lemma stale_step (s : state) (e : event) a :
  a < calls s -> inner s <> Some a ->
  a < calls (step s e).1 /\ inner (step s e).1 <> Some a.
Proof.
  intros Hlt Hne. destruct e; step_cases s; autorewrite with tap;
    try (split; [lia | congruence]).
  split; [lia | intros [= E]; lia].
Qed.

Lemma run_cons (s : state) e es :
  run s (e :: es) =
    ((run (step s e).1 es).1, (step s e).2 ++ (run (step s e).1 es).2).
Proof.
  simpl. destruct (step s e) as [s1 a1]. simpl.
  by destruct (switchLoadMore.run usePadNil s1 es).
Qed.

Lemma run_without (a : nat) (es : list event) : forall s : state,
  a < calls s -> inner s <> Some a -> run s es = run s (without a es).
Proof.
  induction es as [| e es IH]; intros s Hlt Hne; [done |].
  unfold without. simpl List.filter.
  destruct (fromCall a e) eqn:Hf; simpl negb; cbv iota.
  - rewrite run_cons, (step_stale s e a Hne Hf). simpl.
    rewrite (IH s Hlt Hne). unfold without.
    by destruct (switchLoadMore.run _ _ _).
  - destruct (stale_step s e a Hlt Hne) as [Hlt' Hne'].
    rewrite !run_cons. fold (without a es). by rewrite (IH _ Hlt' Hne').
Qed.

(* ---- the bookkeeping invariant ---- *)

Lemma wf_init : wf (init : state).
Proof. intros k. discriminate. Qed.

Lemma wf_step (s : state) (e : event) : wf s -> wf (step s e).1.
Proof.
  intros Hwf k. destruct e; step_cases s; autorewrite with tap;
    try (intros Hk; destruct (Hwf k Hk); split; (lia || congruence));
    try discriminate.
  - intros [= <-]. split; [lia | done].
  - intros [= <-]. split; [by apply Hwf | done].
Qed.

Lemma wf_run (es : list event) : forall s : state, wf s -> wf (run s es).1.
Proof.
  induction es as [| e es IH]; intros s Hwf; [done |].
  rewrite run_cons. simpl. apply IH. by apply wf_step.
Qed.

(* ---- the admission gate ---- *)

(* A buffer of placeholders, as the epoch check builds it, passes the
   gate: the padding is one page long. *)
Lemma padded_buffer_passes (s : state) (p : P) :
  size p <> 0 -> data s = replicate (size p) Undefined -> gate s p = true.
Proof.
  intros Hsz Hd. unfold gate. rewrite Hd, length_replicate, Nat.Div0.mod_same.
  apply andb_true_iff. split; [| done].
  apply negb_true_iff. by apply Nat.eqb_neq.
Qed.

Lemma gate_iff (s : state) (p : P) :
  gate s p = true <-> 0 < size p /\ length (data s) mod size p = 0.
Proof.
  unfold gate. rewrite andb_true_iff, negb_true_iff, Nat.eqb_neq, Nat.eqb_eq.
  split; intros [? ?]; split; (lia || done).
Qed.

(** C1 (amended).  loadMoreFn is called for a descriptor exactly when the
    output is open, the size of the descriptor is positive and the length
    of the buffer, as the epoch check leaves it, is an exact multiple of
    the size; whether a fetch is in flight plays no part.  The stream of
    the call becomes the inner subscription: a fetch that was in flight is
    replaced, and its notifications are dropped from then on. *)
Theorem C1_fetch_only_through_gate (s : state) (e : event) (k : nat) (p : P) :
  (In (Call k p) (step s e).2 <->
   e = SrcNext p /\ closed s = false /\ srcDone s = false /\
   0 < size p /\ length (data (tapEpoch s p)) mod size p = 0 /\
   k = calls s) /\
  (In (Call k p) (step s e).2 ->
   inner (step s e).1 = Some k /\
   forall a e', wf s -> inner s = Some a -> fromCall a e' = true ->
     step (step s e).1 e' = ((step s e).1, [])).
Proof.
  split; [split |].
  - intros Hin. destruct (call_inv s e k p Hin) as (-> & Hc & Hd & Ha & ->).
    apply gate_iff in Ha. by destruct Ha.
  - intros (-> & Hc & Hd & Hsz & Hmod & ->).
    rewrite (step_accepted s p Hc Hd); [by left | by apply gate_iff].
  - intros Hin. destruct (call_inv s e k p Hin) as (-> & Hc & Hd & Ha & ->).
    rewrite (step_accepted s p Hc Hd Ha). simpl. split; [done |].
    intros a e' Hwf Ha' Hf. apply (step_stale _ _ a); [| done].
    simpl. intros [= E]. destruct (Hwf a Ha'). lia.
Qed.

(* ---- switch semantics ---- *)

(** C2.  Latest wins: when descriptor B is admitted while the fetch of
    descriptor A is still the inner subscription, B's stream takes its
    place; whatever A's stream delivers later changes neither the buffer
    nor the output (a run behaves as the run without A's notifications),
    and the result of B's stream, as long as it is the inner subscription,
    is the one merged into the buffer. *)
Theorem C2_latest_wins (s : state) (a b : nat) (pB : P) (es : list event) :
  wf s ->
  inner s = Some a ->
  In (Call b pB) (step s (SrcNext pB)).2 ->
  let s' := (step s (SrcNext pB)).1 in
  inner s' = Some b /\ a <> b /\
  run s' es = run s' (without a es) /\
  (forall res, let s2 := (run s' es).1 in
     inner s2 = Some b ->
     data (step s2 (FetchNext b res)).1 = mergePage (data s2) res).
Proof.
  intros Hwf Ha Hin s'.
  destruct (call_inv _ _ _ _ Hin) as (_ & Hc & Hd & Hadm & ->).
  destruct (Hwf a Ha) as [Hlt _].
  assert (Hs' : inner s' = Some (calls s) /\ calls s' = S (calls s)).
  { unfold s'. by rewrite (step_accepted s pB Hc Hd Hadm). }
  destruct Hs' as [Hi Hn].
  split; [done |]. split; [lia |]. split.
  - apply run_without; [lia |]. rewrite Hi. intros [= E]. lia.
  - intros res s2 Hi2.
    assert (Hwf2 : wf s2) by (apply wf_run, wf_step, Hwf).
    destruct (Hwf2 _ Hi2) as [_ Hc2].
    unfold switchLoadMore.step. rewrite Hc2.
    destruct (decide (inner s2 = Some (calls s))); [done | congruence].
Qed.

(* ---- failure of a fetch ---- *)

(* loadMoreFn(p) throws instead of returning a stream. *)
Variable throws : P -> bool.

#[local] Abbreviation stepT := (stepT usePadNil throws).
#[local] Abbreviation runT := (runT usePadNil throws).

(* A loadMoreFn that never throws: the engine is the one step describes. *)
Lemma stepT_step (s : state) (e : event) :
  (forall p, throws p = false) -> stepT s e = step s e.
Proof.
  intros Hno. destruct e as [p | | | | |]; try done.
  unfold switchLoadMore.stepT. by rewrite (Hno p), andb_false_r.
Qed.

(* A call of loadMoreFn that throws. *)
Lemma stepT_thrown (s : state) (p : P) :
  closed s = false -> srcDone s = false ->
  gate (tapEpoch s p) p = true -> throws p = true ->
  stepT s (SrcNext p) =
    (mkState (defaultItems (tapEpoch s p)) (data (tapEpoch s p))
             (Fin (page p)) None (S (calls s)) false true,
     [Call (calls s) p; Fail]).
Proof.
  intros Hc Hd Hg Ht. unfold switchLoadMore.stepT.
  rewrite Hc, Hd, Hg, Ht. simpl. autorewrite with tap. by rewrite Hd.
Qed.

(** C3 (amended).  Failure isolation.  When the stream loadMoreFn returned
    for an admitted descriptor fails while it is the inner subscription,
    the failure is replaced by the emission of an empty sequence and no
    error reaches the subscriber; the output stays open if the source has
    not completed, and completes right after the empty sequence if it
    has; the buffer, the padding template and the previous page are
    unchanged, and the engine is in the state a completion of that stream
    would have left, so that what follows is handled as after a
    completion.  The failure of a stream that is no longer the inner
    subscription has no effect.  A call of loadMoreFn that throws is not
    caught: for an admitted descriptor it makes the output fail. *)
Theorem C3_failure_isolated (s : state) (es : list event) :
  closed s = false ->
  (forall k, inner s = Some k ->
     let s' := (stepT s (FetchError k)).1 in
     (stepT s (FetchError k)).2 =
       Emit [] :: (if srcDone s then [Done] else []) /\
     ~ In Fail (stepT s (FetchError k)).2 /\
     closed s' = srcDone s /\
     data s' = data s /\ defaultItems s' = defaultItems s /\
     prevPage s' = prevPage s /\
     s' = (stepT s (FetchComplete k)).1 /\
     runT s' es = runT (stepT s (FetchComplete k)).1 es) /\
  (forall k, inner s <> Some k -> stepT s (FetchError k) = (s, [])) /\
  (forall p, srcDone s = false -> gate (tapEpoch s p) p = true ->
     throws p = true ->
     (stepT s (SrcNext p)).2 = [Call (calls s) p; Fail] /\
     closed (stepT s (SrcNext p)).1 = true).
Proof.
  intros Hc. split; [| split].
  - intros k Hk s'. unfold s'. simpl.
    unfold switchLoadMore.step, innerEnd.
    rewrite Hc. destruct (decide (inner s = Some k)); [| done]. simpl.
    repeat split; try done.
    destruct (srcDone s); simpl; intros Hin;
      repeat (destruct Hin as [Hin | Hin]; try discriminate Hin); done.
  - intros k Hk. simpl.
    apply (step_stale _ _ k); [done | by apply bool_decide_eq_true].
  - intros p Hd Hg Ht. by rewrite (stepT_thrown s p Hc Hd Hg Ht).
Qed.

(* ---- success of a fetch ---- *)





(** C7 (amended).  Output guarantee: an admitted descriptor makes the
    engine emit the current buffer at once, right after the call of
    loadMoreFn.  When its stream then settles while it is still the inner
    subscription, one more sequence is emitted: the merged buffer on
    success, the empty sequence on failure.  Once the stream is no longer
    the inner subscription, a later descriptor having been admitted or the
    output having ended, whatever it delivers is dropped and nothing more
    is emitted for the descriptor. *)
Theorem C7_snapshot_then_result (s : state) (k : nat) (p : P)
    (es : list event) :
  In (Call k p) (step s (SrcNext p)).2 ->
  let s1 := (step s (SrcNext p)).1 in
  let s2 := (run s1 es).1 in
  (step s (SrcNext p)).2 = [Call k p; Emit (data (tapEpoch s p))] /\
  inner s1 = Some k /\
  (inner s2 = Some k ->
     (forall res,
        (step s2 (FetchNext k res)).2 = [Emit (mergePage (data s2) res)]) /\
     List.filter isEmit (step s2 (FetchError k)).2 = [Emit []]) /\
  (inner s2 <> Some k ->
     forall e, fromCall k e = true -> step s2 e = (s2, [])).
Proof.
  intros Hin s1 s2.
  destruct (call_inv _ _ _ _ Hin) as (_ & Hc & Hd & Hadm & ->).
  assert (E : step s (SrcNext p) =
    (s1, [Call (calls s) p; Emit (data (tapEpoch s p))])).
  { unfold s1. by rewrite (step_accepted s p Hc Hd Hadm). }
  assert (Hwf1 : wf s1).
  { unfold s1. rewrite (step_accepted s p Hc Hd Hadm). simpl.
    intros k [= <-]. simpl. split; [lia | done]. }
  split; [by rewrite E |]. split.
  { unfold s1. by rewrite (step_accepted s p Hc Hd Hadm). }
  split.
  - intros Hi2.
    assert (Hwf2 : wf s2) by (by apply wf_run).
    destruct (Hwf2 _ Hi2) as [_ Hc2]. split.
    + intros res. unfold switchLoadMore.step. rewrite Hc2.
      destruct (decide (inner s2 = Some (calls s))); [done | congruence].
    + unfold switchLoadMore.step, innerEnd. rewrite Hc2.
      destruct (decide (inner s2 = Some (calls s))); [| congruence].
      by destruct (srcDone s2).
  - intros Hi2 e He. by apply (step_stale _ _ (calls s)).
Qed.

(* ---- short pages and empty pages ---- *)

(** C9.  Once the buffer has a length that is not a multiple of the page
    size sz > 0 and the fetch that left it so has completed, the
    descriptors that follow in the epoch (size sz, page above the previous
    page) are all rejected: loadMoreFn is not called, nothing is emitted
    and the buffer stays as it is.  A descriptor of size sz whose page is
    not above the previous page then starts a new epoch and is admitted. *)
Theorem C9_short_page_stops_epoch (s : state) (sz : nat) (es : list event) :
  closed s = false ->
  srcDone s = false ->
  0 < sz ->
  length (data s) mod sz <> 0 ->
  inner s = None ->
  laterPages sz (prevPage s) es ->
  let s' := (run s es).1 in
  (run s es).2 = [] /\
  data s' = data s /\ calls s' = calls s /\ inner s' = None /\
  (forall p, size p = sz -> leq (page p) (prevPage s') = true ->
     (step s' (SrcNext p)).2 =
       [Call (calls s) p;
        Emit (if usePadNil then replicate sz Undefined else [])]).
Proof.
  intros Hc Hd Hsz. revert s Hc Hd.
  induction es as [| e es IH]; intros s Hc Hd Hmod Hi Hl s'.
  - unfold s'. simpl. repeat split; try done.
    intros p Hp Hle.
    assert (Hdata : data (tapEpoch s p) =
              if usePadNil then replicate sz Undefined else []).
    { destruct (tapEpoch_restart s p Hle) as [-> _]. rewrite Hp.
      destruct (Nat.eqb_spec sz 0); [lia |]. by destruct usePadNil. }
    assert (Hadm : gate (tapEpoch s p) p = true).
    { apply gate_iff. rewrite Hdata, Hp. split; [done |].
      destruct usePadNil; simpl.
      - by rewrite length_replicate, Nat.Div0.mod_same.
      - by apply Nat.Div0.mod_0_l. }
    by rewrite (step_accepted s p Hc Hd Hadm), Hdata.
  - assert (Hstep : (step s e).2 = [] /\ data (step s e).1 = data s /\
        calls (step s e).1 = calls s /\ inner (step s e).1 = None /\
        closed (step s e).1 = false /\ srcDone (step s e).1 = false /\
        laterPages sz (prevPage (step s e).1) es).
    { destruct e; simpl in Hl; try done;
        try (rewrite (step_stale s _ k); simpl;
             [done | congruence | by apply bool_decide_eq_true]).
      destruct Hl as (Hp & Hle & Hl).
      destruct (tapEpoch_later s p Hle) as [Hdata _].
      assert (Hadm : gate (tapEpoch s p) p = false).
      { apply not_true_is_false. intros Ha. apply gate_iff in Ha.
        rewrite Hdata, Hp in Ha. by destruct Ha. }
      rewrite (step_rejected s p Hc Hd Hadm). simpl.
      by autorewrite with tap. }
    destruct Hstep as (Ha & Hdt & Hn & Hi' & Hc' & Hd' & Hl').
    unfold s'. rewrite run_cons. simpl. rewrite Ha. simpl.
    rewrite <- Hdt in Hmod.
    destruct (IH _ Hc' Hd' Hmod Hi' Hl') as (-> & -> & -> & -> & Hnext).
    repeat split; try done.
    intros p Hp Hle. rewrite <- Hn. by apply Hnext.
Qed.

(** C10.  With size = 0 every descriptor fails the size check of the
    admission filter and the epoch check builds an empty padding template,
    with or without padding; so on a source whose descriptors all have
    size 0 the engine never emits a sequence and never calls loadMoreFn,
    and its buffer and template stay empty. *)
Theorem C10_size_zero_silent (es : list event) :
  (forall p, In (SrcNext p) es -> size p = 0) ->
  (forall (s : state) p, size p = 0 ->
     gate s p = false /\
     (leq (page p) (prevPage s) = true ->
        defaultItems (tapEpoch s p) = [] /\ data (tapEpoch s p) = [])) /\
  List.filter isEmit (run init es).2 = [] /\
  List.filter isCall (run init es).2 = [] /\
  defaultItems (run init es).1 = [] /\
  data (run init es).1 = [].
Proof.
  intros Hall.
  assert (Hgate : forall (s : state) p, size p = 0 -> gate s p = false).
  { intros s p Hp. unfold gate. by rewrite Hp. }
  assert (Htap : forall (s : state) p, size p = 0 ->
     leq (page p) (prevPage s) = true ->
     defaultItems (tapEpoch s p) = [] /\ data (tapEpoch s p) = []).
  { intros s p Hp Hle. destruct (tapEpoch_restart s p Hle) as [Hd Hdi].
    rewrite Hdi, Hd, Hp. simpl. by rewrite andb_false_r. }
  split; [intros s p Hp; split; [by apply Hgate | by apply Htap] |].
  assert (Hgen : forall s : state,
    inner s = None -> defaultItems s = [] -> data s = [] ->
    List.filter isEmit (run s es).2 = [] /\
    List.filter isCall (run s es).2 = [] /\
    defaultItems (run s es).1 = [] /\ data (run s es).1 = []).
  { induction es as [| e es IH]; intros s Hi Hdi Hda; [done |].
    assert (Hstep : List.filter isEmit (step s e).2 = [] /\
        List.filter isCall (step s e).2 = [] /\
        inner (step s e).1 = None /\
        defaultItems (step s e).1 = [] /\ data (step s e).1 = []).
    { destruct e as [p | | | k res | k | k];
        try (rewrite (step_stale s _ k); simpl;
             [done | congruence | by apply bool_decide_eq_true]).
      - assert (Hp : size p = 0) by (apply Hall; by left).
        unfold switchLoadMore.step.
        destruct (closed s); [done |]. destruct (srcDone s); [done |].
        rewrite (Hgate _ p Hp). simpl. autorewrite with tap.
        repeat split; try done.
        + destruct (leq (page p) (prevPage s)) eqn:Hle.
          * by apply Htap.
          * by destruct (tapEpoch_later s p Hle) as [_ ->].
        + destruct (leq (page p) (prevPage s)) eqn:Hle.
          * by apply Htap.
          * by destruct (tapEpoch_later s p Hle) as [-> _].
      - by step_cases s.
      - by step_cases s. }
    destruct Hstep as (He & Hcl & Hi' & Hdi' & Hda').
    rewrite run_cons. simpl. rewrite !List.filter_app, He, Hcl. simpl.
    apply IH; try done. intros p Hin. apply Hall. by right. }
  by apply Hgen.
Qed.

End Engine.

End SwitchLoadMoreProofs.

(* ===================================================================== *)
(* Properties of useScrolling                                            *)
(* ===================================================================== *)

Module UseScrollingProofs.

Import useScrolling.

Section Tracker.

Context {V : Type}.
Variable size : nat.
Variable startPage : nat.

#[local] Abbreviation value := (@value V).
#[local] Abbreviation obj := (gmap string value).
#[local] Abbreviation state := (@state V).
#[local] Abbreviation event := (@event V).
#[local] Abbreviation init := (@init V startPage).
#[local] Abbreviation step := (@step V size startPage).
#[local] Abbreviation run := (@run V size startPage).
#[local] Abbreviation descriptor := (@descriptor V size).
#[local] Abbreviation epochPages := (@epochPages V startPage).

(* ---- the fields of a descriptor ---- *)

Lemma descriptor_lookup (pg : nat) (params : obj) (key : string) :
  descriptor pg params !! key =
    match params !! key with
    | Some v => Some v
    | None =>
        if decide (key = "page") then Some (Num pg)
        else if decide (key = "size") then Some (Num size)
        else None
    end.
Proof.
  unfold useScrolling.descriptor.
  destruct (params !! key) as [v |] eqn:E.
  - by apply lookup_union_Some_l.
  - rewrite (lookup_union_r _ _ _ E).
    destruct (decide (key = "page")) as [-> | Hp].
    + by rewrite lookup_insert_eq.
    + rewrite lookup_insert_ne by done.
      destruct (decide (key = "size")) as [-> | Hs].
      * by rewrite lookup_insert_eq.
      * rewrite lookup_insert_ne by done. apply lookup_empty.
Qed.

(* ---- what combineLatest remembers along a run ---- *)

Lemma run_step (s : state) e es :
  run s (e :: es) =
    ((run (step s e).1 es).1,
     match (step s e).2 with
     | Some d => (e, d) :: (run (step s e).1 es).2
     | None => (run (step s e).1 es).2
     end).
Proof.
  simpl. destruct (useScrolling.step size startPage s e) as [s1 o]. simpl.
  by destruct (useScrolling.run size startPage s1 es).
Qed.

Lemma run_app (es : list event) : forall (s : state) e,
  (run s (es ++ [e])).1 = (step (run s es).1 e).1.
Proof.
  induction es as [| e' es IH]; intros s e.
  - simpl. by destruct (useScrolling.step size startPage s e).
  - rewrite <- app_comm_cons, !run_step. simpl. apply IH.
Qed.

Lemma step_latest (s : state) e :
  latestReset (step s e).1 = lastReset (latestReset s) [e] /\
  scrollSeen (step s e).1 = scrollSeen s || isScroll e.
Proof.
  destruct e as [params |]; unfold useScrolling.step, emit; simpl.
  - destruct (scrollSeen s); simpl; by rewrite ?orb_false_r.
  - destruct (latestReset s); simpl; by rewrite orb_true_r.
Qed.

Lemma lastReset_app (es es' : list event) : forall acc,
  lastReset acc (es ++ es') = lastReset (lastReset acc es) es'.
Proof.
  induction es as [| [params |] es IH]; intros acc; simpl; by rewrite ?IH.
Qed.

Lemma run_latest (es : list event) : forall s : state,
  latestReset (run s es).1 = lastReset (latestReset s) es /\
  scrollSeen (run s es).1 = scrollSeen s || existsb isScroll es.
Proof.
  induction es as [| e es IH]; intros s.
  - simpl. by rewrite orb_false_r.
  - rewrite run_step. simpl.
    destruct (IH (step s e).1) as [-> ->].
    destruct (step_latest s e) as [-> ->].
    split; [by destruct e | by rewrite orb_assoc].
Qed.

Lemma lastReset_is_Some (es : list event) : forall acc,
  is_Some (lastReset acc es) <-> is_Some acc \/ existsb isReset es = true.
Proof.
  induction es as [| [params |] es IH]; intros acc; simpl.
  - split; [by left | by intros [? | ?]].
  - rewrite IH. split; [by right | by left; eexists].
  - apply IH.
Qed.

(* A step emits exactly when, the value counted in, both inputs have
   produced one. *)
Lemma step_emits (s : state) e :
  is_Some (step s e).2 <->
  is_Some (latestReset (step s e).1) /\ scrollSeen (step s e).1 = true.
Proof.
  destruct e as [params |]; unfold useScrolling.step, emit; simpl.
  - destruct (scrollSeen s); simpl.
    + split; [by split; [eexists |] | by eexists].
    + split; [by intros [? ?] | by intros [_ ?]].
  - destruct (latestReset s); simpl.
    + split; [by split; [eexists |] | by eexists].
    + split; [by intros [? ?] | by intros [[? ?] _]].
Qed.

(** C8 (amended).  useScrolling produces a descriptor for an input value
    exactly when, with that value counted in, both of its input streams
    have produced at least one value: a value of one stream alone, before
    the other stream has produced any, yields nothing. *)
Theorem C8_emits_once_both_seen (es : list event) (e : event) :
  is_Some (step (run init es).1 e).2 <->
  existsb isReset (es ++ [e]) = true /\ existsb isScroll (es ++ [e]) = true.
Proof.
  rewrite step_emits, <- run_app.
  destruct (run_latest (es ++ [e]) init) as [-> ->]. simpl.
  rewrite lastReset_is_Some. split.
  - by intros [[[? [=]] | ?] ?].
  - intros [? ?]. split; [by right | done].
Qed.

(* What { page, size, ...params } makes of a descriptor: the fields of the
   most recent reset payload, together with the fields page and size
   holding the counter and the size parameter where the payload has no
   field of that name; a field of the payload named page or size keeps
   the payload's value. *)
Lemma descriptor_fields (es : list event) (e : event) (d : obj) :
  (step (run init es).1 e).2 = Some d ->
  exists params,
    lastReset None (es ++ [e]) = Some params /\
    let pg := if isReset e then startPage else page (run init es).1 in
    forall key : string,
      d !! key =
        match params !! key with
        | Some v => Some v
        | None =>
            if decide (key = "page") then Some (Num pg)
            else if decide (key = "size") then Some (Num size)
            else None
        end.
Proof.
  intros Hd. rewrite lastReset_app.
  destruct (run_latest es init) as [Hl _]. simpl in Hl. rewrite <- Hl.
  clear Hl.
  set (s := (run init es).1) in *.
  destruct e as [params |]; unfold useScrolling.step, emit in Hd; simpl in *.
  - destruct (scrollSeen s); [| done]. injection Hd as <-.
    exists params. split; [done |]. apply descriptor_lookup.
  - destruct (latestReset s) as [params |]; [| done]. injection Hd as <-.
    exists params. split; [done |]. apply descriptor_lookup.
Qed.

(* ---- the page numbers ---- *)

Lemma descriptor_page (pg : nat) (params : obj) :
  plain params -> descriptor pg params !! "page" = Some (Num pg).
Proof. intros Hp. rewrite descriptor_lookup. unfold plain in Hp. by rewrite Hp. Qed.

Lemma incr_exact (n : nat) : exact n -> incr n = S n.
Proof.
  unfold exact, incr. intros Hn. apply N.ltb_lt in Hn. by rewrite Hn.
Qed.

Lemma exact_le (n m : nat) : n <= m -> exact m -> exact n.
Proof. unfold exact. lia. Qed.

Lemma step_tracks (s : state) (prev : option nat) (e : event) :
  tracks startPage s prev ->
  exact startPage ->
  (forall m, prev = Some m -> exact (S m)) ->
  (forall params, latestReset s = Some params -> plain params) ->
  (forall params, e = Reset params -> plain params) ->
  (forall params, latestReset (step s e).1 = Some params -> plain params) /\
  match (step s e).2 with
  | Some d =>
      let n := match prev, e with
               | Some m, Scroll => S m
               | _, _ => startPage
               end in
      d !! "page" = Some (Num n) /\ tracks startPage (step s e).1 (Some n)
  | None => tracks startPage (step s e).1 prev
  end.
Proof.
  intros Ht Hx0 Hx Hs He.
  destruct e as [params |]; unfold useScrolling.step, emit; simpl.
  - assert (Hp : plain params) by by apply He.
    destruct (scrollSeen s) eqn:Hseen; simpl;
      (split; [by intros ? [= <-] |]).
    + rewrite descriptor_page by done. rewrite (incr_exact _ Hx0).
      destruct prev; simpl; repeat split; eauto.
    + destruct prev as [m |]; simpl in *.
      * destruct Ht as (_ & _ & ?). congruence.
      * split; [done | by right].
  - destruct (latestReset s) as [params |] eqn:Hlat; simpl.
    + split; [by intros ? [= <-]; apply Hs |].
      rewrite descriptor_page by by apply Hs.
      destruct prev as [m |]; simpl in *; destruct Ht as (-> & _).
      * rewrite (incr_exact (S m)) by by apply Hx.
        repeat split; eauto.
      * rewrite (incr_exact _ Hx0). repeat split; eauto.
    + split; [done |].
      destruct prev as [m |]; simpl in *.
      * destruct Ht as (_ & [? ?] & _). congruence.
      * destruct Ht as (-> & _). split; [done | by left].
Qed.

Lemma run_pages (es : list event) : forall (s : state) prev,
  tracks startPage s prev ->
  exact (startPage + length es) ->
  (forall m, prev = Some m -> exact (m + length es)) ->
  (forall params, latestReset s = Some params -> plain params) ->
  (forall params, In (Reset params) es -> plain params) ->
  map (fun x : event * obj => x.2 !! "page") (run s es).2 =
  map (fun n => Some (Num n)) (epochPages prev (map fst (run s es).2)).
Proof.
  induction es as [| e es IH]; intros s prev Ht Hx0 Hx Hs Hes; [done |].
  simpl length in Hx0, Hx.
  destruct (step_tracks s prev e Ht) as [Hs' Hd]; [| | done | |].
  { apply (exact_le _ (startPage + S (length es))); [lia | done]. }
  { intros m Hm. apply (exact_le _ (m + S (length es))); [lia | by apply Hx]. }
  { intros params ->. apply Hes. by left. }
  assert (Hes' : forall params, In (Reset params) es -> plain params).
  { intros params Hin. apply Hes. by right. }
  assert (Hx0' : exact (startPage + length es)).
  { apply (exact_le _ (startPage + S (length es))); [lia | done]. }
  rewrite run_step. simpl.
  destruct (step s e).2 as [d |]; simpl.
  - destruct Hd as [-> Ht']. f_equal. apply IH; try done.
    intros m [= <-]. destruct prev as [m' |], e; try done.
    apply (exact_le _ (m' + S (length es))); [lia | by apply Hx].
  - apply IH; try done. intros m Hm.
    apply (exact_le _ (m + S (length es))); [lia | by apply Hx].
Qed.

Lemma epochPages_bounds (trigs : list event) : forall prev i n,
  epochPages prev trigs !! i = Some n -> startPage <= n \/
  exists m, prev = Some m /\ m < n.
Proof.
  induction trigs as [| t trigs IH]; intros prev i n; [done |].
  destruct i as [| i]; simpl.
  - intros [= <-]. destruct prev as [m |], t; eauto with lia.
  - intros Hn. destruct (IH _ _ _ Hn) as [? | (m & [= <-] & Hlt)]; [by left |].
    destruct prev as [m' |], t; eauto with lia.
Qed.

Lemma epochPages_reset (trigs : list event) : forall prev i n params,
  trigs !! i = Some (Reset params) ->
  epochPages prev trigs !! i = Some n -> n = startPage.
Proof.
  induction trigs as [| t trigs IH]; intros prev i n params; [done |].
  destruct i as [| i]; simpl.
  - intros [= ->] [= <-]. by destruct prev.
  - apply IH.
Qed.

Lemma epochPages_scroll (trigs : list event) : forall prev i m n,
  trigs !! S i = Some Scroll ->
  epochPages prev trigs !! i = Some m ->
  epochPages prev trigs !! S i = Some n -> n = S m.
Proof.
  induction trigs as [| t trigs IH]; intros prev i m n; [done |].
  destruct i as [| i]; simpl.
  - destruct trigs as [| t' trigs]; [done |]. simpl.
    by intros [= ->] [= <-] [= <-].
  - apply IH.
Qed.

(* The page fields when no payload has a field named page and the counter
   stays below 2^53: startPage for the first descriptor and for every
   descriptor triggered by a reset, one more than the page before for
   every descriptor triggered by a scroll. *)
Lemma epoch_pages (es : list event) :
  (forall params, In (Reset params) es -> params !! "page" = None) ->
  exact (startPage + length es) ->
  let out := (run init es).2 in
  let trigs := map fst out in
  let pages := epochPages None trigs in
  map (fun x : event * obj => x.2 !! "page") out =
    map (fun n => Some (Num n)) pages /\
  (forall n, pages !! 0 = Some n -> n = startPage) /\
  (forall i n params,
     trigs !! i = Some (Reset params) -> pages !! i = Some n ->
     n = startPage) /\
  (forall i m n,
     trigs !! S i = Some Scroll ->
     pages !! i = Some m -> pages !! S i = Some n ->
     n = S m /\ startPage < n).
Proof.
  intros Hplain Hx out trigs pages. split; [| split; [| split]].
  - apply run_pages; [by split; [| left] | done | done | done | done].
  - intros n Hn. unfold pages in Hn.
    destruct trigs as [| t trigs']; [done |]. by injection Hn as <-.
  - intros i n params. apply epochPages_reset.
  - intros i m n Ht Hm Hn.
    assert (n = S m) as -> by by eapply epochPages_scroll.
    split; [done |].
    destruct (epochPages_bounds _ _ _ _ Hm) as [? | (? & [=] & _)]. lia.
Qed.

End Tracker.

End UseScrollingProofs.

(* ===================================================================== *)
(* The operators on concrete inputs                                      *)
(* ===================================================================== *)

Module Checks.

Import Sample.

Section SwitchLoadMoreChecks.

Import switchLoadMore SwitchLoadMoreProofs.

#[local] Abbreviation event := (@event req string).

(* size = 2: page 1 returns a, b and page 2 returns c, d. *)
Example two_pages :
  (run true init
     [SrcNext page1; FetchNext 0 [a; b]; FetchComplete 0;
      SrcNext page2; FetchNext 1 [c; d]; FetchComplete 1]).2 =
  [Call 0 page1; Emit [Undefined; Undefined]; Emit [a; b];
   Call 1 page2; Emit [a; b]; Emit [a; b; c; d]].
Proof. reflexivity. Qed.

(* The fetch of page 2 fails, those of pages 1 and 3 succeed. *)
Example failed_page :
  (run true init
     [SrcNext page1; FetchNext 0 [a; b]; FetchComplete 0;
      SrcNext page2; FetchError 1;
      SrcNext page3; FetchNext 2 [c; d]; FetchComplete 2]).2 =
  [Call 0 page1; Emit [Undefined; Undefined]; Emit [a; b];
   Call 1 page2; Emit [a; b]; Emit [];
   Call 2 page3; Emit [a; b]; Emit [a; b; c; d]].
Proof. reflexivity. Qed.

(* The descriptor of page 2 arrives before page 1 has been fetched. *)
Example overtaken_page :
  (run true init
     [SrcNext page1; SrcNext page2; FetchNext 0 [a; b];
      FetchNext 1 [c; d]]).2 =
  [Call 0 page1; Emit [Undefined; Undefined];
   Call 1 page2; Emit [Undefined; Undefined]; Emit [c; d]].
Proof. reflexivity. Qed.

(* C1 as stated fails: the buffer holds the placeholders of page 1, whose
   fetch is in flight, and the descriptor of page 2 still passes the gate
   and has loadMoreFn called. *)
Lemma C1_gate_open_during_flight :
  ~ (is_Some (inner inFlight) -> In Undefined (data inFlight) ->
     List.filter isCall (step true inFlight (SrcNext page2)).2 = []).
Proof.
  intros Hclaim.
  assert (E : List.filter isCall (step true inFlight (SrcNext page2)).2 = []).
  { apply Hclaim; [by eexists | by left]. }
  discriminate E.
Qed.

Lemma C1_witness :
  let s' := (step true inFlight (SrcNext page2)).1 in
  In (Call 1 page2) (step true inFlight (SrcNext page2)).2 /\
  inner s' = Some 1 /\
  step true s' (FetchNext 0 [a; b]) = (s', []).
Proof.
  destruct (C1_fetch_only_through_gate true inFlight (SrcNext page2) 1 page2)
    as [[_ Hcall] Hswitch].
  assert (Hin : In (Call 1 page2) (step true inFlight (SrcNext page2)).2).
  { apply Hcall. repeat split; (reflexivity || (simpl; lia)). }
  split; [exact Hin |].
  destruct (Hswitch Hin) as [Hinner Hdrop].
  split; [exact Hinner |].
  apply (Hdrop 0).
  - intros k E. vm_compute in E. injection E as <-.
    vm_compute. split; [lia | reflexivity].
  - reflexivity.
  - reflexivity.
Defined.

Lemma C2_witness :
  let late : list event := [FetchNext 0 [a; b]] in
  let s' := (step true inFlight (SrcNext page2)).1 in
  inner s' = Some 1 /\ 0 <> 1 /\
  run true s' late = run true s' (without 0 late) /\
  data (step true (run true s' late).1 (FetchNext 1 [c; d])).1 = [c; d].
Proof.
  destruct (C2_latest_wins true inFlight 0 1 page2 [FetchNext 0 [a; b]])
    as (Hinner & Hne & Hdrop & Hmerge).
  - intros k E. vm_compute in E. injection E as <-.
    vm_compute. split; [lia | reflexivity].
  - reflexivity.
  - simpl. left. reflexivity.
  - split; [exact Hinner |]. split; [exact Hne |]. split; [exact Hdrop |].
    apply (Hmerge [c; d]). reflexivity.
Defined.

(* C3 as stated fails: the descriptor of page 1 passes the admission
   filter and its fetch fails, loadMoreFn throwing; no empty sequence is
   emitted, the error reaches the subscriber and the output is closed. *)
Lemma C3_thrown_call_fails_output :
  ~ (gate (tapEpoch true (init (D := string)) page1) page1 = true ->
     In (Emit []) (stepT true alwaysThrows (init (D := string))
                     (SrcNext page1)).2 /\
     ~ In Fail (stepT true alwaysThrows (init (D := string))
                  (SrcNext page1)).2 /\
     closed (stepT true alwaysThrows (init (D := string))
               (SrcNext page1)).1 = false).
Proof.
  intros Hclaim. destruct Hclaim as (_ & _ & Hopen); [reflexivity |].
  discriminate Hopen.
Qed.

Lemma C3_witness :
  let s' := (stepT true throwsOnPage2 inFlight (FetchError 0)).1 in
  (stepT true throwsOnPage2 inFlight (FetchError 0)).2 = [Emit []] /\
  closed s' = false /\
  data s' = [Undefined; Undefined] /\
  s' = (stepT true throwsOnPage2 inFlight (FetchComplete 0)).1 /\
  stepT true throwsOnPage2 inFlight (FetchError 5) = (inFlight, []) /\
  (stepT true throwsOnPage2 inFlight (SrcNext page2)).2 =
    [Call 1 page2; Fail] /\
  closed (stepT true throwsOnPage2 inFlight (SrcNext page2)).1 = true.
Proof.
  destruct (C3_failure_isolated true throwsOnPage2 inFlight
              ([SrcNext page3] : list event))
    as (Hfail & Hstale & Hthrow); [reflexivity |].
  destruct (Hfail 0 eq_refl) as (Hacts & _ & Hopen & Hdata & _ & _ & Hsame & _).
  destruct (Hthrow page2) as [Hcall Hclosed]; try reflexivity.
  split; [exact Hacts |]. split; [exact Hopen |]. split; [exact Hdata |].
  split; [exact Hsame |]. split; [| split; [exact Hcall | exact Hclosed]].
  apply (Hstale 5). discriminate.
Defined.


(* C7 as stated fails: the descriptor of page 1 is admitted, the one of
   page 2 is admitted before the fetch of page 1 has settled, and when
   that fetch delivers its page nothing is emitted. *)
Lemma C7_overtaken_fetch_emits_nothing :
  ~ (In (Call 0 page1) (step true (init (D := string)) (SrcNext page1)).2 ->
     exists xs,
       In (Emit xs)
          (step true (run true init [SrcNext page1; SrcNext page2]).1
                (FetchNext 0 [a; b])).2).
Proof.
  intros Hclaim. destruct Hclaim as [xs Hin].
  - simpl. left. reflexivity.
  - destruct Hin.
Qed.

Lemma C7_witness :
  let s1 := (step true (init (D := string)) (SrcNext page1)).1 in
  let s2 := (run true s1 [SrcNext (mkReq 2 0)]).1 in
  let s3 := (run true s1 [SrcNext page2]).1 in
  (step true (init (D := string)) (SrcNext page1)).2 =
    [Call 0 page1; Emit [Undefined; Undefined]] /\
  inner s1 = Some 0 /\
  (step true s2 (FetchNext 0 [a; b])).2 = [Emit [a; b]] /\
  List.filter isEmit (step true s2 (FetchError 0)).2 = [Emit []] /\
  step true s3 (FetchNext 0 [a; b]) = (s3, []).
Proof.
  destruct (C7_snapshot_then_result true (init (D := string)) 0 page1
              [SrcNext (mkReq 2 0)]) as (Hsnap & Hinner & Hsettle & _).
  { simpl. left. reflexivity. }
  destruct (C7_snapshot_then_result true (init (D := string)) 0 page1
              [SrcNext page2]) as (_ & _ & _ & Hdrop).
  { simpl. left. reflexivity. }
  split; [exact Hsnap |]. split; [exact Hinner |].
  destruct Hsettle as [Hok Hfail]; [reflexivity |].
  split; [exact (Hok [a; b]) |]. split; [exact Hfail |].
  apply Hdrop; [discriminate | reflexivity].
Defined.

Lemma C9_witness :
  let later : list event := [SrcNext page2; FetchNext 0 [b]; SrcNext page3] in
  let s' := (run true shortPage later).1 in
  (run true shortPage later).2 = [] /\
  data s' = data shortPage /\ calls s' = calls shortPage /\
  inner s' = None /\
  (forall p : req, size p = 2 -> leq (page p) (prevPage s') = true ->
     (step true s' (SrcNext p)).2 =
       [Call (calls shortPage) p;
        Emit (if true then replicate 2 Undefined else [])]).
Proof.
  apply (C9_short_page_stops_epoch true shortPage 2
           ([SrcNext page2; FetchNext 0 [b]; SrcNext page3] : list event)).
  - reflexivity.
  - reflexivity.
  - lia.
  - vm_compute. lia.
  - reflexivity.
  - simpl. repeat split; reflexivity.
Defined.

Lemma C10_witness :
  let es : list event := [SrcNext (mkReq 1 0); SrcNext (mkReq 2 0)] in
  (forall (s : state (D := string)) (p : req), size p = 0 ->
     gate s p = false /\
     (leq (page p) (prevPage s) = true ->
        defaultItems (tapEpoch true s p) = [] /\
        data (tapEpoch true s p) = [])) /\
  List.filter isEmit (run true (init (D := string)) es).2 = [] /\
  List.filter isCall (run true (init (D := string)) es).2 = [] /\
  defaultItems (run true (init (D := string)) es).1 = [] /\
  data (run true (init (D := string)) es).1 = [].
Proof.
  apply (C10_size_zero_silent true
           ([SrcNext (mkReq 1 0); SrcNext (mkReq 2 0)] : list event)).
  intros p [E | [E | []]]; injection E as <-; reflexivity.
Defined.

End SwitchLoadMoreChecks.

Section UseScrollingChecks.

Import useScrolling UseScrollingProofs.

#[local] Abbreviation obj := (gmap string (@value string)).
#[local] Abbreviation event := (@event string).

(* size = 2, startPage = 1: a reset, two scrolls, a reset. *)
Example pages_of_two_epochs :
  map (fun x : event * obj => (x.2 !! "page", x.2 !! "size", x.2 !! "q"))
      (run 2 1 (init 1) [Reset query; Scroll; Scroll; Reset query]).2 =
  [(Some (Num 1), Some (Num 2), Some (Other "x"));
   (Some (Num 2), Some (Num 2), Some (Other "x"));
   (Some (Num 1), Some (Num 2), Some (Other "x"))].
Proof. reflexivity. Qed.

(** C4 (the code at the failing input).  useScrolling with size = 2 and
    startPage = 1; reset$ emits the payload { page: 7 } and scroll$ emits
    twice.  The counter page is 1 when the first descriptor is built and
    2 when the second is, but the two descriptors carry page 7 and 7: in
    { page, size, ...params } the payload is copied over the counter. *)
Theorem C4_payload_page_emitted :
  map (fun x : event * obj => x.2 !! "page")
      (run 2 1 (init 1) [Reset withPage; Scroll; Scroll]).2 =
    [Some (Num 7); Some (Num 7)] /\
  page (run 2 1 (init 1) [Reset withPage]).1 = 1 /\
  page (run 2 1 (init 1) [Reset withPage; Scroll]).1 = 2.
Proof. by vm_compute. Qed.

(** C5 (the code at the failing input).  useScrolling with size = 10 and
    startPage = 1; reset$ emits the payload { page: "x", size: 50 } and
    scroll$ emits once.  The counter is 1 and the size parameter 10, but
    the descriptor carries page "x" and size 50: the payload's fields
    overwrite the tracker's, not the other way round. *)
Theorem C5_payload_fields_emitted :
  map (fun x : event * obj => (x.2 !! "page", x.2 !! "size"))
      (run 10 1 (init 1) [Reset withBoth; Scroll]).2 =
    [(Some (Other "x"), Some (Num 50))] /\
  page (run 10 1 (init 1) [Reset withBoth]).1 = 1.
Proof. by vm_compute. Qed.

(* C8 as stated fails: reset$ has produced a value and fires, scroll$ has
   produced none, and no descriptor comes out. *)
Lemma C8_reset_alone_emits_nothing :
  ~ (existsb isReset [Reset query] || existsb isScroll [Reset query] = true ->
     is_Some (step 2 1 (run 2 1 (init 1) []).1 (Reset query)).2).
Proof.
  intros Hclaim. destruct Hclaim as [d' E]; [reflexivity |].
  vm_compute in E. discriminate E.
Qed.

End UseScrollingChecks.

End Checks.

(* ===================================================================== *)
(* Properties of the predicates of src/util.ts                           *)
(* ===================================================================== *)

Module PredicatesProofs.

Import Predicates.

(* notErr accepts the values that are neither null, nor undefined, nor an
   instance of Error. *)
Lemma notErr_plain {D E : Type} (value : item (orError D E)) :
  notErr value = true <-> exists d, value = Val (Plain d).
Proof.
  destruct value as [| | [d | e]]; unfold notErr; simpl;
    split; try discriminate; try (by intros [? [=]]).
  by exists d.
Qed.

(** X1.  notNilObject accepts exactly the objects none of whose fields
    holds null or undefined: null and undefined are rejected, and so is
    an object with such a field, whatever its other fields hold. *)
Theorem notNilObject_fields {D : Type} (v : item (gmap string (item D))) :
  notNilObject v = true <->
  exists o, v = Val o /\
    forall key x, o !! key = Some x -> notNil x = true.
Proof.
  unfold notNilObject, everyValueNotNil.
  destruct v as [| | o]; simpl.
  - split; [discriminate | by intros (? & [=] & _)].
  - split; [discriminate | by intros (? & [=] & _)].
  - rewrite forallb_forall. split.
    + intros Hall. exists o. split; [done |]. intros key x Hx.
      apply Hall, list_elem_of_In, list_elem_of_fmap.
      exists (key, x). split; [done |]. by apply elem_of_map_to_list.
    + intros (o' & [= <-] & Hall) x Hin.
      apply list_elem_of_In, list_elem_of_fmap in Hin.
      destruct Hin as ([key x'] & -> & Hin).
      apply elem_of_map_to_list in Hin. by apply (Hall key).
Qed.

(** X2.  Setting a field of an object: the result passes notNilObject
    exactly when the value set is neither null nor undefined and the
    object without that field passes. *)
Theorem notNilObject_insert {D : Type} (o : gmap string (item D))
    (key : string) (x : item D) :
  notNilObject (Val (<[key := x]> o)) =
  notNil x && notNilObject (Val (delete key o)).
Proof.
  apply eq_true_iff_eq.
  rewrite andb_true_iff, !notNilObject_fields. split.
  - intros (o' & [= <-] & Hall). split.
    + apply (Hall key). apply lookup_insert_eq.
    + exists (delete key o). split; [done |]. intros k y Hk.
      apply lookup_delete_Some in Hk as [Hne Hk].
      apply (Hall k). by rewrite lookup_insert_ne.
  - intros (Hx & o' & [= <-] & Hall).
    exists (<[key := x]> o). split; [done |]. intros k y Hk.
    destruct (decide (key = k)) as [<- | Hne].
    + rewrite lookup_insert_eq in Hk. by injection Hk as <-.
    + rewrite lookup_insert_ne in Hk by done.
      apply (Hall k). by apply lookup_delete_Some.
Qed.

End PredicatesProofs.

(* ===================================================================== *)
(* Properties of the filters of src/rxjs.ts                              *)
(* ===================================================================== *)

Module FiltersProofs.

Import Stream Predicates Filters PredicatesProofs.

Section Operators.

Context {A E : Type}.

#[local] Abbreviation notification := (notification A E).

Lemma values_filterOp (predicate : A -> bool) (tr : list notification) :
  values (filterOp predicate tr) = List.filter predicate (values (observed tr)).
Proof.
  induction tr as [| [a | e |] tr IH]; simpl; try done.
  destruct (predicate a); simpl; by rewrite IH.
Qed.

Lemma endings_filterOp (predicate : A -> bool) (tr : list notification) :
  endings (filterOp predicate tr) = endings (observed tr).
Proof.
  induction tr as [| [a | e |] tr IH]; simpl; try done.
  destruct (predicate a); simpl; by rewrite IH.
Qed.

Lemma observed_catchErrorOf (h : E -> A + E) (tr : list notification) :
  observed (catchErrorOf h tr) = catchErrorOf h tr.
Proof.
  induction tr as [| [a | e |] tr IH]; simpl; rewrite ?IH; try done.
  by destruct (h e).
Qed.

Lemma values_catchErrorOf (h : E -> A + E) (tr : list notification) :
  values (catchErrorOf h tr) =
  values (observed tr) ++
  match endings (observed tr) with
  | Error e :: _ => match h e with inl a => [a] | inr _ => [] end
  | _ => []
  end.
Proof.
  induction tr as [| [a | e |] tr IH]; simpl; try done.
  - by rewrite IH.
  - by destruct (h e).
Qed.

Lemma endings_catchErrorOf (h : E -> A + E) (tr : list notification) :
  endings (catchErrorOf h tr) =
  map (fun n => match n with
                | Error e => match h e with
                             | inl _ => Complete
                             | inr e' => Error e'
                             end
                | _ => Complete
                end) (endings (observed tr)).
Proof.
  induction tr as [| [a | e |] tr IH]; simpl; rewrite ?IH; try done.
  by destruct (h e).
Qed.

Lemma endings_observed_values (tr : list notification) :
  observed tr = map Next (values (observed tr)) ++ endings (observed tr).
Proof. induction tr as [| [a | e |] tr IH]; simpl; by rewrite <- ?IH. Qed.

End Operators.

Section Filters.

Context {D E : Type}.

(** X3.  filterNil passes on the values of its source that are neither
    null nor undefined, in their order, and the error or completion that
    ends the source; no value it emits is null or undefined. *)
Theorem filterNil_values (obs : list (notification (item D) E)) :
  values (filterNil obs) = List.filter notNil (values (observed obs)) /\
  endings (filterNil obs) = endings (observed obs) /\
  ~ In Null (values (filterNil obs)) /\
  ~ In Undefined (values (filterNil obs)).
Proof.
  unfold filterNil. rewrite values_filterOp, endings_filterOp.
  repeat split; try done; intros Hin; apply filter_In in Hin as [_ Hn];
    discriminate Hn.
Qed.

(** X4.  Every value filterNilObject emits is an object none of whose
    fields holds null or undefined, and the values it emits are those of
    the source that are such objects, in their order. *)
Theorem filterNilObject_values
    (obs : list (notification (item (gmap string (item D))) E)) :
  values (filterNilObject obs) =
    List.filter notNilObject (values (observed obs)) /\
  Forall (fun v => exists o, v = Val o /\
            forall key x, o !! key = Some x -> notNil x = true)
         (values (filterNilObject obs)).
Proof.
  unfold filterNilObject. rewrite values_filterOp. split; [done |].
  apply List.Forall_forall. intros v Hin.
  apply filter_In in Hin as [_ Hv]. by apply notNilObject_fields.
Qed.

(** X5.  filterTrue emits nothing but true and filterFalse nothing but
    false; piped one after the other, in either order, they emit no
    value at all. *)
Theorem filterTrue_filterFalse (obs : list (notification (item bool) E)) :
  Forall (fun v => v = Val true) (values (filterTrue obs)) /\
  Forall (fun v => v = Val false) (values (filterFalse obs)) /\
  values (filterTrue (filterFalse obs)) = [] /\
  values (filterFalse (filterTrue obs)) = [].
Proof.
  unfold filterTrue, filterFalse.
  assert (Hdisj : forall p q : item bool -> bool,
            (forall v, p v = true -> q v = false) ->
            values (filterOp q (filterOp p obs)) = []).
  { intros p q Hpq.
    induction obs as [| [v | e |] tr IH]; simpl; try done.
    destruct (p v) eqn:Hp; simpl; [| done]. by rewrite (Hpq v Hp). }
  repeat split.
  - rewrite values_filterOp. apply List.Forall_forall. intros v Hin.
    apply filter_In in Hin as [_ Hv]. by destruct v as [| | []].
  - rewrite values_filterOp. apply List.Forall_forall. intros v Hin.
    apply filter_In in Hin as [_ Hv]. by destruct v as [| | []].
  - apply Hdisj. by intros [| | []].
  - apply Hdisj. by intros [| | []].
Qed.

Variable unprintable : E -> bool.
Variable typeError : E -> E.

#[local] Abbreviation filterError := (filterError unprintable typeError).
#[local] Abbreviation newError :=
  (newError (D := D) unprintable typeError).

(** X6.  filterError turns the failure of its source into completion,
    unless the value the source failed with has no string form: then
    new Error throws, and the TypeError it throws is the error passed on.
    No other error leaves filterError.  The values it emits are those the
    source emitted before it ended that are neither null, nor undefined,
    nor instances of Error, in their order; the Error built from the
    failure is not among them. *)
Theorem filterError_outcome
    (obs : list (notification (item (orError D E)) E)) :
  (forall err', In (Error err') (filterError obs) ->
     exists err, In (Error err) (observed obs) /\
       unprintable err = true /\ err' = typeError err) /\
  endings (filterError obs) =
    map (fun n => match n with
                  | Error err =>
                      if unprintable err then Error (typeError err)
                      else Complete
                  | _ => Complete
                  end) (endings (observed obs)) /\
  values (filterError obs) = List.filter notErr (values (observed obs)) /\
  Forall (fun v => exists d, v = Val (Plain d)) (values (filterError obs)).
Proof.
  unfold Filters.filterError.
  assert (Hend : endings (filterOp notErr (catchErrorOf newError obs)) =
    map (fun n => match n with
                  | Error err =>
                      if unprintable err then Error (typeError err)
                      else Complete
                  | _ => Complete
                  end) (endings (observed obs))).
  { rewrite endings_filterOp, observed_catchErrorOf, endings_catchErrorOf.
    apply map_ext. intros [a | err |]; try done.
    unfold Filters.newError. by destruct (unprintable err). }
  assert (Hval : values (filterOp notErr (catchErrorOf newError obs)) =
    List.filter notErr (values (observed obs))).
  { rewrite values_filterOp, observed_catchErrorOf, values_catchErrorOf.
    rewrite List.filter_app.
    destruct (endings (observed obs)) as [| [? | err |] ?]; simpl;
      rewrite ?app_nil_r; try done.
    unfold Filters.newError. destruct (unprintable err); simpl;
      by rewrite app_nil_r. }
  split; [| split; [done | split; [done |]]].
  - intros err' Hin.
    assert (Hin' : In (Error err')
              (endings (filterOp notErr (catchErrorOf newError obs)))).
    { apply filter_In. by split. }
    rewrite Hend in Hin'. apply in_map_iff in Hin' as (n & Hn & Hnin).
    apply filter_In in Hnin as [Hnin _].
    destruct n as [a | err |]; try discriminate Hn.
    destruct (unprintable err) eqn:Hu; [| discriminate Hn].
    injection Hn as <-. by exists err.
  - rewrite Hval. apply List.Forall_forall. intros v Hin.
    apply filter_In in Hin as [_ Hv]. by apply notErr_plain.
Qed.

End Filters.

End FiltersProofs.

(* ===================================================================== *)
(* Properties of onLoading                                               *)
(* ===================================================================== *)

Module LoadingProofs.

Import Stream Loading.

Section Loading.

Context {U E : Type}.

#[local] Abbreviation input := (@input U E).

(** X7.  onLoading is transparent to the subscriber: what is passed on
    is what the source sends, up to its error or completion or to the
    moment the subscriber unsubscribes, and nothing else.  The earlier
    onLoading of the repository passes on the same. *)
Theorem onLoading_transparent (ins : list input) :
  delivered (onLoading ins) = observed (received ins) /\
  delivered (onLoadingEarlier ins) = observed (received ins).
Proof.
  unfold onLoading, onLoadingEarlier. simpl.
  induction ins as [| [[u | err |] |] ins [IH1 IH2]]; simpl; try done.
  by rewrite IH1, IH2.
Qed.

(** X8.  The subject holds true while the subscription is live and false
    once it has ended: the last value onLoading sends to the subject is
    false exactly when the source has failed or completed or the
    subscriber has unsubscribed.  The same holds of the earlier
    onLoading. *)
Theorem onLoading_last_signal (ins : list input) :
  last (signals (onLoading ins)) = Some (negb (ended ins)) /\
  last (signals (onLoadingEarlier ins)) = Some (negb (ended ins)).
Proof.
  unfold onLoading, onLoadingEarlier, ended. simpl.
  induction ins as [| [[u | err |] |] ins [IH1 IH2]]; simpl; done.
Qed.

(** X9.  The values onLoading sends to the subject, in order: true when
    the operator is applied and once more before every value of the
    source, then false twice when the source fails, once when it
    completes or the subscriber unsubscribes, and not at all while the
    subscription is live. *)
Theorem onLoading_signals (ins : list input) :
  signals (onLoading ins) =
    replicate (S (length (values (observed (received ins))))) true ++
    replicate (if errored ins then 2 else if ended ins then 1 else 0) false.
Proof.
  unfold onLoading, ended. simpl. f_equal.
  induction ins as [| [[u | err |] |] ins IH]; simpl; try done.
  by rewrite IH.
Qed.

End Loading.

End LoadingProofs.

(* ===================================================================== *)
(* Properties of watchFocus                                              *)
(* ===================================================================== *)

Module FocusProofs.

Import Focus.

(** X10.  watchFocus emits false on subscription and one value for every
    focusin and focusout of the element; the value emitted last tells
    whether the element has the focus, provided it had not when the
    subscription began. *)
Theorem watchFocus_latest (evs : list domEvent) :
  head (watchFocus evs) = Some false /\
  length (watchFocus evs) = S (length evs) /\
  last (watchFocus evs) = Some (focused evs).
Proof.
  unfold watchFocus, focused. split; [done |]. split.
  - simpl. by rewrite length_map.
  - assert (Hgen : forall b0 : bool,
      last (b0 :: map (fun ev => match ev with
                                 | Focusin => true
                                 | Focusout => false
                                 end) evs) =
      Some (fold_left (fun _ ev => match ev with
                                   | Focusin => true
                                   | Focusout => false
                                   end) evs b0)); [| by apply Hgen].
    induction evs as [| ev evs IH]; intros b0; [done |].
    simpl map. simpl fold_left. by rewrite <- IH.
Qed.

End FocusProofs.

(* ===================================================================== *)
(* Paging sessions of switchLoadMore                                     *)
(* ===================================================================== *)

Module PagingProofs.

Import switchLoadMore SwitchLoadMoreProofs Paging.

Section Sessions.

Context {P D : Type} `{Pagination P}.
Variable usePadNil : bool.

#[local] Abbreviation state := (@state D).
#[local] Abbreviation event := (@event P D).
#[local] Abbreviation step := (step usePadNil).
#[local] Abbreviation run := (run usePadNil).
#[local] Abbreviation tapEpoch := (tapEpoch usePadNil).

(* The padding template of a descriptor of positive size. *)
#[local] Abbreviation template p :=
  (if usePadNil then replicate (size p) (@Undefined D) else []).

Lemma filter_notNil_all (r : list (item D)) :
  forallb notNil r = true -> List.filter notNil r = r.
Proof.
  induction r as [| x r IH]; simpl; [done |].
  intros [Hx Hr]%andb_true_iff. by rewrite Hx, IH.
Qed.

Lemma filter_notNil_twice (l : list (item D)) :
  List.filter notNil (List.filter notNil l) = List.filter notNil l.
Proof.
  apply filter_notNil_all, forallb_forall.
  by intros x [_ Hx]%filter_In.
Qed.

Lemma filter_notNil_template (n : nat) :
  List.filter notNil (replicate n (@Undefined D)) = [].
Proof. induction n as [| n IH]; simpl; done. Qed.

Lemma restart_template (s : state) (p : P) :
  size p <> 0 -> leq (page p) (prevPage s) = true ->
  data (tapEpoch s p) = template p /\
  defaultItems (tapEpoch s p) = template p /\
  gate (tapEpoch s p) p = true.
Proof.
  intros Hsz Hle. destruct (tapEpoch_restart usePadNil s p Hle) as [Hd Hdi].
  assert (Hd' : data (tapEpoch s p) = template p).
  { rewrite Hd. destruct (Nat.eqb_spec (size p) 0); [done |].
    by destruct usePadNil. }
  split; [done |]. split; [by rewrite Hdi |].
  apply gate_iff. rewrite Hd'. split; [lia |].
  destruct usePadNil.
  - by rewrite length_replicate, Nat.Div0.mod_same.
  - by apply Nat.Div0.mod_0_l.
Qed.

(** X11.  A descriptor of positive size whose page is not above the
    previous page is always fetched while the output is live, whatever
    the buffer holds and whether or not a fetch is in flight: the buffer
    and the template become the padding (size placeholders, or nothing
    without padding), loadMoreFn is called and the padding is emitted. *)
Theorem restart_always_fetches (s : state) (p : P) :
  closed s = false ->
  srcDone s = false ->
  size p <> 0 ->
  leq (page p) (prevPage s) = true ->
  step s (SrcNext p) =
    (mkState (template p) (template p) (Fin (page p))
             (Some (calls s)) (S (calls s)) false false,
     [Call (calls s) p; Emit (template p)]).
Proof.
  intros Hc Hd Hsz Hle.
  destruct (restart_template s p Hsz Hle) as (Hdata & Hdi & Hgate).
  by rewrite (step_accepted usePadNil s p Hc Hd Hgate), Hdata, Hdi.
Qed.

Lemma step_src_live (s : state) (p : P) :
  closed s = false -> srcDone s = false ->
  closed (step s (SrcNext p)).1 = false /\
  srcDone (step s (SrcNext p)).1 = false /\
  prevPage (step s (SrcNext p)).1 = Fin (page p).
Proof.
  intros Hc Hd. destruct (gate (tapEpoch s p) p) eqn:Hg.
  - by rewrite (step_accepted usePadNil s p Hc Hd Hg).
  - rewrite (step_rejected usePadNil s p Hc Hd Hg). simpl.
    by rewrite tapEpoch_closed, tapEpoch_srcDone, tapEpoch_prevPage.
Qed.

(** X12.  A descriptor delivered twice in a row starts a new epoch the
    second time: its page is not above the previous page, so the buffer
    is set back to the padding and the page is fetched again, whether or
    not the first delivery was admitted. *)
Theorem repeated_descriptor_restarts (s : state) (p : P) :
  closed s = false ->
  srcDone s = false ->
  size p <> 0 ->
  let s1 := (step s (SrcNext p)).1 in
  (step s1 (SrcNext p)).2 = [Call (calls s1) p; Emit (template p)] /\
  data (step s1 (SrcNext p)).1 = template p.
Proof.
  intros Hc Hd Hsz s1.
  destruct (step_src_live s p Hc Hd) as (Hc1 & Hd1 & Hprev).
  fold s1 in Hc1, Hd1, Hprev.
  rewrite (restart_always_fetches s1 p Hc1 Hd1 Hsz); [done |].
  rewrite Hprev. simpl. by apply Nat.leb_le.
Qed.

(* One admitted descriptor, the page of its fetch, and the completion of
   the fetch. *)
Lemma page_cycle (s : state) (p : P) (r : list (item D)) :
  closed s = false -> srcDone s = false -> gate (tapEpoch s p) p = true ->
  run s [SrcNext p; FetchNext (calls s) r; FetchComplete (calls s)] =
    (mkState (defaultItems (tapEpoch s p))
             (mergePage (data (tapEpoch s p)) r)
             (Fin (page p)) None (S (calls s)) false false,
     [Call (calls s) p; Emit (data (tapEpoch s p));
      Emit (mergePage (data (tapEpoch s p)) r)]).
Proof.
  intros Hc Hd Hg. simpl.
  rewrite (step_accepted usePadNil s p Hc Hd Hg).
  unfold switchLoadMore.step, innerEnd. simpl.
  destruct (decide (Some (calls s) = Some (calls s))); [| done]. simpl.
  destruct (decide (Some (calls s) = Some (calls s))); [| done]. done.
Qed.

Lemma run_append (es1 es2 : list event) : forall s : state,
  run s (es1 ++ es2) =
    ((run (run s es1).1 es2).1, (run s es1).2 ++ (run (run s es1).1 es2).2).
Proof.
  induction es1 as [| e es1 IH]; intros s.
  - simpl. by destruct (switchLoadMore.run usePadNil s es2).
  - rewrite <- app_comm_cons, !run_cons, IH. simpl. by rewrite app_assoc.
Qed.

Lemma session_cons (k : nat) (p : P) (r : list (item D)) prs :
  session k ((p, r) :: prs) =
  [SrcNext p; FetchNext k r; FetchComplete k] ++ session (S k) prs.
Proof. done. Qed.

(** X13.  Pages accumulate.  On a live engine whose buffer has a length
    that is a multiple of the page size, before and after its
    placeholders are dropped, a run of descriptors with rising page
    numbers, each followed by a full page of proper items and the
    completion of its fetch, emits for each descriptor the buffer so far
    and then the buffer with the page appended, and leaves the buffer
    holding its former proper items followed by all the pages in order. *)
Theorem pages_accumulate (sz : nat) (prs : list (P * list (item D)))
    (s : state) :
  closed s = false ->
  srcDone s = false ->
  0 < sz ->
  length (data s) mod sz = 0 ->
  length (List.filter notNil (data s)) mod sz = 0 ->
  fullPages sz (prevPage s) prs ->
  let s' := (run s (session (calls s) prs)).1 in
  (run s (session (calls s) prs)).2 = sessionOutput (calls s) (data s) prs /\
  List.filter notNil (data s') =
    List.filter notNil (data s) ++ concat (map snd prs) /\
  (prs <> [] ->
   data s' = List.filter notNil (data s) ++ concat (map snd prs)).
Proof.
  intros Hc Hd Hsz. revert s Hc Hd.
  induction prs as [| [p r] prs IH]; intros s Hc Hd Hlen Hflen Hfull s'.
  - unfold s'. simpl. by rewrite app_nil_r.
  - destruct Hfull as (Hp & Hle & Hr & Hnn & Hfull).
    destruct (tapEpoch_later usePadNil s p Hle) as [Hdata Hdi].
    assert (Hg : gate (tapEpoch s p) p = true).
    { apply gate_iff. rewrite Hdata, Hp. by split. }
    pose proof (page_cycle s p r Hc Hd Hg) as Hcycle.
    rewrite Hdata, Hdi in Hcycle.
    set (s1 := mkState (defaultItems s) (mergePage (data s) r)
                 (Fin (page p)) None (S (calls s)) false false) in *.
    assert (Hf1 : List.filter notNil (data s1) = data s1).
    { simpl. unfold mergePage.
      by rewrite List.filter_app, filter_notNil_twice, (filter_notNil_all r). }
    assert (Hlen1 : length (data s1) mod sz = 0).
    { simpl. unfold mergePage. rewrite length_app, Nat.Div0.add_mod.
      rewrite Hflen, Hr. by apply Nat.Div0.mod_0_l. }
    destruct (IH s1 eq_refl eq_refl Hlen1) as (Hout & Hfin & Hne);
      [by rewrite Hf1 | done |].
    unfold s'. rewrite session_cons, run_append, Hcycle. simpl fst. simpl snd.
    change (calls s1) with (S (calls s)) in Hout, Hfin, Hne.
    rewrite Hout, Hfin, Hf1. simpl.
    assert (Hcat : mergePage (data s) r ++ concat (map snd prs) =
              List.filter notNil (data s) ++ r ++ concat (map snd prs)).
    { unfold mergePage. by rewrite app_assoc. }
    split; [done |]. split; [done |]. intros _.
    destruct prs as [| pr prs'].
    + simpl. unfold mergePage. by rewrite app_nil_r.
    + rewrite Hne by done. by rewrite Hf1.
Qed.

(** X14.  An epoch of full pages.  When a descriptor of positive size
    starts an epoch on a live engine and every descriptor up to the last
    gets a page of proper items whose number is a multiple of the size,
    the first emission is the padding, every later descriptor first
    emits the pages so far, and the buffer ends as the pages one after
    the other: no placeholder and nothing of the epoch before is left. *)
Theorem epoch_of_full_pages (sz : nat) (p0 : P) (r0 : list (item D))
    (prs : list (P * list (item D))) (s : state) :
  closed s = false ->
  srcDone s = false ->
  0 < sz ->
  size p0 = sz ->
  leq (page p0) (prevPage s) = true ->
  length r0 mod sz = 0 ->
  forallb notNil r0 = true ->
  fullPages sz (Fin (page p0)) prs ->
  (run s (session (calls s) ((p0, r0) :: prs))).2 =
    sessionOutput (calls s) (template p0) ((p0, r0) :: prs) /\
  data (run s (session (calls s) ((p0, r0) :: prs))).1 =
    concat (map snd ((p0, r0) :: prs)).
Proof.
  intros Hc Hd Hsz Hp Hle Hr Hnn Hfull.
  assert (Hsz' : size p0 <> 0) by lia.
  destruct (restart_template s p0 Hsz' Hle) as (Hdata & Hdi & Hg).
  pose proof (page_cycle s p0 r0 Hc Hd Hg) as Hcycle.
  rewrite Hdata, Hdi in Hcycle.
  assert (Hm : mergePage (template p0) r0 = r0).
  { unfold mergePage. destruct usePadNil; [| done].
    by rewrite filter_notNil_template. }
  rewrite Hm in Hcycle.
  set (s1 := mkState (template p0) r0 (Fin (page p0)) None (S (calls s))
               false false) in *.
  destruct (pages_accumulate sz prs s1 eq_refl eq_refl Hsz)
    as (Hout & _ & Hne); [done | | done |].
  { simpl. by rewrite filter_notNil_all. }
  change (calls s1) with (S (calls s)) in Hout, Hne.
  simpl data in Hout.
  rewrite session_cons, run_append, Hcycle. simpl fst. simpl snd.
  rewrite Hout. split.
  - simpl. by rewrite Hm.
  - simpl map. simpl concat. destruct prs as [| pr prs'].
    + simpl. by rewrite app_nil_r.
    + rewrite Hne by done. simpl data. by rewrite filter_notNil_all.
Qed.


(* loadMoreFn(p) throws instead of returning a stream. *)
Variable throws : P -> bool.

#[local] Abbreviation stepT := (stepT usePadNil throws).
#[local] Abbreviation runT := (runT usePadNil throws).




End Sessions.

End PagingProofs.

(* ===================================================================== *)
(* useScrolling once both inputs have produced a value, and the          *)
(* descriptors of useScrolling under the epoch check of switchLoadMore   *)
(* ===================================================================== *)

Module PipelineProofs.

Import UseScrollingProofs SwitchLoadMoreProofs PagingProofs Paging.

Section Pipeline.

Context {V : Type}.
Variable sz : nat.
Variable start : nat.

#[local] Abbreviation value := (@useScrolling.value V).
#[local] Abbreviation obj := (gmap string value).
#[local] Abbreviation tstate := (@useScrolling.state V).
#[local] Abbreviation tevent := (@useScrolling.event V).
#[local] Abbreviation tinit := (@useScrolling.init V start).
#[local] Abbreviation tstep := (@useScrolling.step V sz start).
#[local] Abbreviation trun := (@useScrolling.run V sz start).

Lemma run_both_seen (es : list tevent) : forall s : tstate,
  is_Some (useScrolling.latestReset s) ->
  useScrolling.scrollSeen s = true ->
  map fst (trun s es).2 = es.
Proof.
  induction es as [| e es IH]; intros s Hr Hs; [done |].
  rewrite run_step. simpl snd.
  destruct (step_latest sz start s e) as [Hl Hseen].
  assert (Hr' : is_Some (useScrolling.latestReset (tstep s e).1)).
  { rewrite Hl. destruct e; simpl; [by eexists | done]. }
  assert (Hs' : useScrolling.scrollSeen (tstep s e).1 = true).
  { by rewrite Hseen, Hs. }
  destruct (proj2 (step_emits sz start s e) (conj Hr' Hs')) as [d Hd].
  rewrite Hd. simpl. f_equal. by apply IH.
Qed.

(** X16.  Once reset$ and scroll$ have both produced a value, useScrolling
    emits exactly one descriptor for every further value of either input,
    in the order of these values. *)
Theorem one_descriptor_per_value (es1 es2 : list tevent) :
  existsb useScrolling.isReset es1 = true ->
  existsb useScrolling.isScroll es1 = true ->
  map fst (trun (trun tinit es1).1 es2).2 = es2 /\
  length (trun (trun tinit es1).1 es2).2 = length es2.
Proof.
  intros Hr Hs.
  assert (Hmap : map fst (trun (trun tinit es1).1 es2).2 = es2).
  { destruct (run_latest sz start es1 tinit) as [Hl Hseen].
    apply run_both_seen.
    - rewrite Hl. apply lastReset_is_Some. by right.
    - by rewrite Hseen, Hs. }
  split; [done |]. by rewrite <- Hmap at 2; rewrite length_map.
Qed.

(* ---- the descriptors of useScrolling fed to switchLoadMore ---- *)

Context {D : Type}.
Variable usePadNil : bool.

#[local] Abbreviation request := (@request V).
#[local] Abbreviation estate := (@switchLoadMore.state D).
#[local] Abbreviation eevent := (@switchLoadMore.event request D).
#[local] Abbreviation estep := (@switchLoadMore.step request D _ usePadNil).
#[local] Abbreviation epochStarts :=
  (@switchLoadMore.epochStarts request D _ usePadNil).

Lemma asRequest_page (d : obj) (r : request) (n : nat) :
  asRequest d = Some r -> d !! "page" = Some (useScrolling.Num n) ->
  page r = n.
Proof.
  unfold asRequest. intros Hr Hd. rewrite Hd in Hr.
  destruct (d !! "size") as [[k |] |]; try discriminate Hr.
  by injection Hr as <-.
Qed.

Lemma pages_of_requests (out : list (tevent * obj)) :
  forall (rs : list request) pages,
  Forall2 (fun d r => asRequest d = Some r) (map snd out) rs ->
  map (fun x : tevent * obj => x.2 !! "page") out =
    map (fun n => Some (useScrolling.Num n)) pages ->
  map page rs = pages.
Proof.
  induction out as [| [t d] out IH]; intros rs pages Hrs Heq.
  - inversion Hrs; subst. by destruct pages.
  - destruct pages as [| n pages]; [discriminate Heq |].
    simpl in Hrs. inversion Hrs as [| ? r ? rs' Hr Hrs']; subst.
    simpl in Heq. injection Heq as Hd Hrest. simpl. f_equal.
    + by apply (asRequest_page d).
    + by apply IH.
Qed.

(* A notification of a fetch leaves the source live and the previous page
   as it is. *)
Lemma fetch_keeps_epoch (s : estate) (e : eevent) :
  switchLoadMore.closed s = false -> switchLoadMore.srcDone s = false ->
  (forall p, e <> switchLoadMore.SrcNext p) ->
  e <> switchLoadMore.SrcError -> e <> switchLoadMore.SrcComplete ->
  switchLoadMore.closed (estep s e).1 = false /\
  switchLoadMore.srcDone (estep s e).1 = false /\
  switchLoadMore.prevPage (estep s e).1 = switchLoadMore.prevPage s.
Proof.
  intros Hc Hd Hnext Herr Hcompl.
  destruct e as [p | | | k res | k | k]; try done.
  - by destruct (Hnext p).
  - unfold switchLoadMore.step. rewrite Hc.
    by destruct (decide (switchLoadMore.inner s = Some k)).
  - unfold switchLoadMore.step, switchLoadMore.innerEnd. rewrite Hc.
    destruct (decide (switchLoadMore.inner s = Some k)); simpl; by rewrite ?Hd.
  - unfold switchLoadMore.step, switchLoadMore.innerEnd. rewrite Hc.
    destruct (decide (switchLoadMore.inner s = Some k)); simpl; by rewrite ?Hd.
Qed.

Lemma starts_later (fes : list eevent) :
  forall (trigs : list tevent) (s : estate) (m : nat),
  switchLoadMore.closed s = false -> switchLoadMore.srcDone s = false ->
  switchLoadMore.prevPage s = switchLoadMore.Fin m ->
  start <= m ->
  switchLoadMore.sourceLive fes = true ->
  map page (switchLoadMore.descriptors fes) =
    useScrolling.epochPages start (Some m) trigs ->
  epochStarts s fes = map useScrolling.isReset trigs.
Proof.
  induction fes as [| e fes IH]; intros trigs s m Hc Hd Hprev Hm Hlive Hpages.
  - destruct trigs; [done | discriminate Hpages].
  - simpl in Hlive. apply andb_true_iff in Hlive as [He Hlive].
    destruct e as [p | | | k res | k | k]; try discriminate He.
    + destruct trigs as [| t trigs]; [discriminate Hpages |].
      cbn [switchLoadMore.descriptors map useScrolling.epochPages] in Hpages.
      assert (Hp : page p = match t with
                            | useScrolling.Reset _ => start
                            | useScrolling.Scroll => S m
                            end)
        by (injection Hpages; intros _ Hp; by destruct t).
      assert (Hrest : map page (switchLoadMore.descriptors fes) =
                useScrolling.epochPages start (Some (page p)) trigs).
      { injection Hpages. intros Hrest _. rewrite Hp.
        by destruct t. }
      destruct (step_src_live usePadNil s p Hc Hd) as (Hc' & Hd' & Hprev').
      cbn [switchLoadMore.epochStarts]. rewrite Hc, Hd, Hprev. cbn [app orb].
      cbn [map]. f_equal.
      * unfold switchLoadMore.leq. rewrite Hp.
        destruct t; simpl useScrolling.isReset.
        -- apply Nat.leb_le. lia.
        -- apply Nat.leb_gt. lia.
      * apply (IH trigs _ (page p)); try done. rewrite Hp. destruct t; lia.
    + destruct (fetch_keeps_epoch s (switchLoadMore.FetchNext k res) Hc Hd)
        as (Hc' & Hd' & Hprev'); try done.
      cbn [switchLoadMore.epochStarts switchLoadMore.descriptors] in *.
      cbn [app orb]. apply (IH trigs _ m); try done. by rewrite Hprev'.
    + destruct (fetch_keeps_epoch s (switchLoadMore.FetchError k) Hc Hd)
        as (Hc' & Hd' & Hprev'); try done.
      cbn [switchLoadMore.epochStarts switchLoadMore.descriptors] in *.
      cbn [app orb]. apply (IH trigs _ m); try done. by rewrite Hprev'.
    + destruct (fetch_keeps_epoch s (switchLoadMore.FetchComplete k) Hc Hd)
        as (Hc' & Hd' & Hprev'); try done.
      cbn [switchLoadMore.epochStarts switchLoadMore.descriptors] in *.
      cbn [app orb]. apply (IH trigs _ m); try done. by rewrite Hprev'.
Qed.

Lemma starts_first (fes : list eevent) :
  forall (trigs : list tevent) (s : estate),
  switchLoadMore.closed s = false -> switchLoadMore.srcDone s = false ->
  switchLoadMore.prevPage s = switchLoadMore.Infinity ->
  switchLoadMore.sourceLive fes = true ->
  map page (switchLoadMore.descriptors fes) =
    useScrolling.epochPages start None trigs ->
  epochStarts s fes =
    match trigs with
    | [] => []
    | _ :: trigs' => true :: map useScrolling.isReset trigs'
    end.
Proof.
  induction fes as [| e fes IH]; intros trigs s Hc Hd Hprev Hlive Hpages.
  - destruct trigs; [done | discriminate Hpages].
  - simpl in Hlive. apply andb_true_iff in Hlive as [He Hlive].
    destruct e as [p | | | k res | k | k]; try discriminate He.
    + destruct trigs as [| t trigs]; [discriminate Hpages |].
      cbn [switchLoadMore.descriptors map useScrolling.epochPages] in Hpages.
      assert (Hp : page p = start) by (injection Hpages; intros _ Hp; exact Hp).
      assert (Hrest : map page (switchLoadMore.descriptors fes) =
                useScrolling.epochPages start (Some start) trigs)
        by (injection Hpages; intros Hrest _; exact Hrest).
      destruct (step_src_live usePadNil s p Hc Hd) as (Hc' & Hd' & Hprev').
      cbn [switchLoadMore.epochStarts]. rewrite Hc, Hd, Hprev. cbn [app orb].
      f_equal. apply (starts_later fes trigs _ start); try done.
      by rewrite Hprev', Hp.
    + destruct (fetch_keeps_epoch s (switchLoadMore.FetchNext k res) Hc Hd)
        as (Hc' & Hd' & Hprev'); try done.
      cbn [switchLoadMore.epochStarts switchLoadMore.descriptors] in *.
      cbn [app orb]. apply IH; try done. by rewrite Hprev'.
    + destruct (fetch_keeps_epoch s (switchLoadMore.FetchError k) Hc Hd)
        as (Hc' & Hd' & Hprev'); try done.
      cbn [switchLoadMore.epochStarts switchLoadMore.descriptors] in *.
      cbn [app orb]. apply IH; try done. by rewrite Hprev'.
    + destruct (fetch_keeps_epoch s (switchLoadMore.FetchComplete k) Hc Hd)
        as (Hc' & Hd' & Hprev'); try done.
      cbn [switchLoadMore.epochStarts switchLoadMore.descriptors] in *.
      cbn [app orb]. apply IH; try done. by rewrite Hprev'.
Qed.

(** X17.  useScrolling feeding switchLoadMore.  Let the reset payloads
    have no field named page and the counter stay below 2^53, and let the
    engine receive the descriptors of useScrolling in their order, with
    any notifications of fetches in between and a source that neither
    fails nor completes.  Then, in the run of the engine, the epoch check
    p.page <= prevPage succeeds on the first descriptor and on every
    descriptor triggered by a reset, and fails on every descriptor
    triggered by a scroll.  Where the check succeeds the buffer becomes
    the padding template, where it fails the buffer is left as it is: a
    reset always starts a new buffer and a scroll never does. *)
Theorem reset_starts_epoch (es : list tevent) (fes : list eevent) :
  (forall params, In (useScrolling.Reset params) es ->
     params !! "page" = None) ->
  useScrolling.exact (start + length es) ->
  Forall2 (fun d r => asRequest d = Some r)
          (map snd (trun tinit es).2) (switchLoadMore.descriptors fes) ->
  switchLoadMore.sourceLive fes = true ->
  epochStarts switchLoadMore.init fes =
    match map fst (trun tinit es).2 with
    | [] => []
    | _ :: trigs => true :: map useScrolling.isReset trigs
    end /\
  (forall (s : estate) (p : request),
     (switchLoadMore.leq (page p) (switchLoadMore.prevPage s) = true ->
      switchLoadMore.data (switchLoadMore.tapEpoch usePadNil s p) =
        (if usePadNil && negb (size p =? 0)
         then replicate (size p) Undefined else [])) /\
     (switchLoadMore.leq (page p) (switchLoadMore.prevPage s) = false ->
      switchLoadMore.data (switchLoadMore.tapEpoch usePadNil s p) =
        switchLoadMore.data s)).
Proof.
  intros Hplain Hx Hreq Hlive. split.
  - apply starts_first; try done.
    apply (pages_of_requests _ _ _ Hreq).
    apply run_pages; [by split; [| left] | done | done | done | done].
  - intros s p. split; intros Hle.
    + by destruct (tapEpoch_restart usePadNil s p Hle).
    + by destruct (tapEpoch_later usePadNil s p Hle).
Qed.

End Pipeline.

End PipelineProofs.

(* ===================================================================== *)
(* The further properties on concrete inputs                             *)
(* ===================================================================== *)

Module MoreChecks.

Import Stream Predicates Filters Loading Focus Paging Sample Inputs.

Section StreamChecks.

(* The source emits "a", null and an Error, then fails with "boom". *)
Example filterError_on_failing :
  filterError hasNoString typeErrorFor failing =
    [Next (Val (Plain "a")); Complete].
Proof. reflexivity. Qed.

(* The source emits "a", then fails with a value without a string form. *)
Example filterError_on_failingOddly :
  filterError hasNoString typeErrorFor failingOddly =
    [Next (Val (Plain "a")); Error "TypeError: Symbol()"].
Proof. reflexivity. Qed.

Example notNilObject_on_objects :
  notNilObject (Val holed) = false /\ notNilObject (Val filled) = true /\
  notNilObject (Val (∅ : gmap string (item string))) = true /\
  notNilObject (Null : item (gmap string (item string))) = false.
Proof. by vm_compute. Qed.

Example onLoading_on_error :
  onLoading twoThenError =
    [Signal true; Signal true; Deliver (Next "x");
     Signal true; Deliver (Next "y");
     Signal false; Deliver (Error "boom"); Signal false] /\
  onLoadingEarlier twoThenError =
    [Signal true; Deliver (Next "x"); Deliver (Next "y");
     Deliver (Error "boom"); Signal false].
Proof. by split. Qed.

End StreamChecks.

Section PagingChecks.

Import switchLoadMore PagingProofs.

#[local] Abbreviation event := (@event req string).

Lemma restart_always_fetches_witness :
  step true shortPage (SrcNext page1) =
    (mkState (if true then replicate (size page1) Undefined else [])
             (if true then replicate (size page1) Undefined else [])
             (Fin (page page1)) (Some (calls shortPage))
             (S (calls shortPage)) false false,
     [Call (calls shortPage) page1;
      Emit (if true then replicate (size page1) Undefined else [])]).
Proof.
  apply (restart_always_fetches true shortPage page1).
  - reflexivity.
  - reflexivity.
  - simpl. lia.
  - reflexivity.
Defined.

Lemma repeated_descriptor_restarts_witness :
  let s1 := (step true inFlight (SrcNext page2)).1 in
  (step true s1 (SrcNext page2)).2 =
    [Call (calls s1) page2;
     Emit (if true then replicate (size page2) Undefined else [])] /\
  data (step true s1 (SrcNext page2)).1 =
    (if true then replicate (size page2) Undefined else []).
Proof.
  apply (repeated_descriptor_restarts true inFlight page2).
  - reflexivity.
  - reflexivity.
  - simpl. lia.
Defined.

Lemma pages_accumulate_witness :
  let s' := (run true onePage (session (calls onePage) laterPages23)).1 in
  (run true onePage (session (calls onePage) laterPages23)).2 =
    sessionOutput (calls onePage) (data onePage) laterPages23 /\
  List.filter notNil (data s') =
    List.filter notNil (data onePage) ++ concat (map snd laterPages23) /\
  (laterPages23 <> [] ->
   data s' =
     List.filter notNil (data onePage) ++ concat (map snd laterPages23)).
Proof.
  apply (pages_accumulate true 2 laterPages23 onePage).
  - reflexivity.
  - reflexivity.
  - lia.
  - reflexivity.
  - reflexivity.
  - simpl. repeat split; reflexivity.
Defined.

Lemma epoch_of_full_pages_witness :
  (run true shortPage
     (session (calls shortPage) ((page1, [a; b]) :: laterPages23))).2 =
    sessionOutput (calls shortPage)
      (if true then replicate (size page1) Undefined else [])
      ((page1, [a; b]) :: laterPages23) /\
  data (run true shortPage
          (session (calls shortPage) ((page1, [a; b]) :: laterPages23))).1 =
    concat (map snd ((page1, [a; b]) :: laterPages23)).
Proof.
  apply (epoch_of_full_pages true 2 page1 [a; b] laterPages23 shortPage).
  - reflexivity.
  - reflexivity.
  - lia.
  - reflexivity.
  - reflexivity.
  - reflexivity.
  - reflexivity.
  - simpl. repeat split; reflexivity.
Defined.


End PagingChecks.

Section PipelineChecks.

Import useScrolling PipelineProofs.

#[local] Abbreviation tevent := (@useScrolling.event string).

Lemma one_descriptor_per_value_witness :
  let es1 : list tevent := [Reset query; Scroll] in
  let es2 : list tevent := [Scroll; Reset query; Scroll] in
  map fst (run 2 1 (run 2 1 (init 1) es1).1 es2).2 = es2 /\
  length (run 2 1 (run 2 1 (init 1) es1).1 es2).2 = length es2.
Proof.
  apply (one_descriptor_per_value 2 1 [Reset query; Scroll]
           [Scroll; Reset query; Scroll]); reflexivity.
Defined.

Lemma reset_starts_epoch_witness :
  switchLoadMore.epochStarts true switchLoadMore.init fed =
    [true; false; true].
Proof.
  destruct (reset_starts_epoch 2 1 true
              [Reset query; Scroll; Scroll; Reset ∅] fed) as [Hstarts _].
  - intros params [E | [E | [E | [E | []]]]];
      try discriminate E; injection E as <-; reflexivity.
  - vm_compute. reflexivity.
  - vm_compute. repeat constructor.
  - reflexivity.
  - exact Hstarts.
Defined.

End PipelineChecks.

End MoreChecks.
